(** * Reactor: the message-driven state container of nuclear-js

    A shallow embedding of [src/Reactor.js] and a verification of its
    specification.  The class [Reactor] owns an Immutable.Map of sub-states
    keyed by core id, a registry object of cores, and the dispatch loop
    [cycle].  JavaScript exceptions, the caller-visible array that [cycle]
    shifts, and the calls made to cores, to the logger and to the output
    stream are modelled explicitly. *)

From Stdlib Require Import ZArith Lia.
From stdpp Require Import gmap strings list fin_maps pretty.

Set Warnings "-register-all".

Open Scope string_scope.

(** ** JavaScript values *)

(** The values that flow through the store.  Plain objects and arrays are
    what cores hand back from [initialize]; [IMap] and [IList] are the
    persistent collections of the immutable library.  Numbers are the
    integer-valued doubles, with [VNaN] apart. *)
Inductive value : Type :=
| VUndefined
| VNull
| VBool (b : bool)
| VNum (n : Z)
| VNaN
| VStr (s : string)
| VObject (fields : list (string * value))
| VArray (items : list value)
| IMap (entries : list (string * value))
| IList (items : list value).

(** ToBoolean: [undefined], [null], [false], [0], [NaN] and the empty
    string are falsy, every object is truthy. *)
Definition truthy (v : value) : bool :=
  match v with
  | VUndefined | VNull | VNaN => false
  | VBool b => b
  | VNum n => negb (Z.eqb n 0)
  | VStr s => negb (String.eqb s EmptyString)
  | VObject _ | VArray _ | IMap _ | IList _ => true
  end.

(** [a || b] on values. *)
Definition js_or (a b : value) : value := if truthy a then a else b.

Inductive error : Type :=
| Error (msg : string)
| TypeError (msg : string)
| ReferenceError (msg : string)
| Raised (v : value).

(** Completion of a call: a returned value or a thrown exception. *)
Inductive result (A : Type) : Type :=
| Ok (a : A)
| Throw (e : error).
Arguments Ok {A} a.
Arguments Throw {A} e.

Definition is_Ok {A} (r : result A) : bool :=
  match r with Ok _ => true | Throw _ => false end.

(** ** The immutable library *)

Module Immutable.

(** The persistent collections: the values that carry the collection
    methods ([asImmutable], [toJS], ...). *)
Definition isCollection (v : value) : bool :=
  match v with IMap _ | IList _ => true | _ => false end.

(** [Immutable.fromJS]: plain objects become Maps and plain arrays Lists,
    in depth; anything else, a persistent collection included, is returned
    as it is. *)
Fixpoint fromJS (v : value) : value :=
  match v with
  | VObject fs => IMap (map (fun kv => match kv with (k, x) => (k, fromJS x) end) fs)
  | VArray xs => IList (map fromJS xs)
  | _ => v
  end.

(** [collection.toJS()]: the deep conversion of a persistent collection to
    plain objects and arrays; a value without a [toJS] method is kept. *)
Fixpoint toJS (v : value) : value :=
  match v with
  | IMap es => VObject (map (fun kv => match kv with (k, x) => (k, toJS x) end) es)
  | IList xs => VArray (map toJS xs)
  | _ => v
  end.

(** [collection.get(key)] on a nested value: the entry of a Map, and
    [undefined] when the key is absent. *)
Fixpoint assoc (k : string) (es : list (string * value)) : option value :=
  match es with
  | [] => None
  | (k', x) :: es' => if String.eqb k k' then Some x else assoc k es'
  end.

(** [map.set(key, x)] on the entries of a Map. *)
Fixpoint set (k : string) (x : value) (es : list (string * value))
  : list (string * value) :=
  match es with
  | [] => [(k, x)]
  | (k', x') :: es' =>
      if String.eqb k k' then (k', x) :: es' else (k', x') :: set k x es'
  end.

(** [value.asImmutable()], as a method call on an arbitrary value: reading
    a property of [undefined] or [null] raises, and so does calling the
    missing method of a value that is not a persistent collection. *)
Definition asImmutable (v : value) : result value :=
  match v with
  | IMap _ | IList _ => Ok v
  | VUndefined | VNull =>
      Throw (TypeError "Cannot read property 'asImmutable' of undefined")
  | _ => Throw (TypeError "undefined is not a function")
  end.

End Immutable.

(** ** Messages, cores and the store's objects *)

(** A message, as [cycle] reads it: [message.type] and [message.payload]. *)
Record message : Type := Message { type : value; payload : value }.

(** A core, by the two methods the store calls on it.  Both are functions
    of their arguments only; either may raise. *)
Record core : Type := Core_ {
  initialize : result value;
  react : value → value → value → result value
}.

(** What a caller may pass as second argument of [attachCore]: a value for
    which [core instanceof ReactorCore] holds, or any other value. *)
Inductive candidate : Type :=
| Instance (c : core)
| Other (v : value).

(** The state tree: an Immutable.Map from core id to sub-state. *)
Abbreviation tree := (gmap string value).

(** The fields of a [Reactor] instance.  [reactorCores] is a plain object:
    its own properties are kept in the order in which they were created. *)
Record Reactor : Type := Reactor_ {
  state : tree;
  reactorCores : list (string * core)
}.

(** References to the JavaScript arrays of messages that callers hold. *)
Definition loc := nat.

Record world : Type := World {
  this : Reactor;
  arrays : list (list message)
}.

(** What a call makes observable outside the store: the calls to a core's
    methods with their completions, the notifications to the logger, and
    the writes to the output stream. *)
Inductive event : Type :=
| CallInitialize (id : string) (res : result value)
| CallReact (id : string) (sub ty pl : value) (res : result value)
| LogCycleStart (m : option message)
| LogCoreReact (id : string) (old new : value)
| LogCycleEnd (st : tree)
| StreamWrite (st : tree).

(** ** Computations: state, emitted events and exceptions *)

Record outcome (A : Type) : Type := Outcome {
  after : world;
  emitted : list event;
  completion : result A
}.
Arguments Outcome {A} after emitted completion.
Arguments after {A} o.
Arguments emitted {A} o.
Arguments completion {A} o.

Definition M (A : Type) : Type := world → outcome A.

Definition ret {A} (a : A) : M A := fun w => Outcome w [] (Ok a).

Definition throw {A} (e : error) : M A := fun w => Outcome w [] (Throw e).

(** Sequencing: an exception skips the rest, and keeps the effects made so
    far. *)
Definition bind {A B} (m : M A) (k : A → M B) : M B := fun w =>
  match m w with
  | Outcome w1 evs (Ok a) =>
      match k a w1 with
      | Outcome w2 evs' r => Outcome w2 (evs ++ evs') r
      end
  | Outcome w1 evs (Throw e) => Outcome w1 evs (Throw e)
  end.

Notation "x <- m ;; k" := (bind m (fun x => k))
  (at level 100, m at next level, right associativity).
Notation "m ;; k" := (bind m (fun _ => k))
  (at level 100, right associativity).

Definition emit (e : event) : M unit := fun w => Outcome w [e] (Ok tt).

Definition read_this : M Reactor := fun w => Outcome w [] (Ok (this w)).

(** [this.state = st] *)
Definition assign_state (st : tree) : M unit := fun w =>
  Outcome (World (Reactor_ st (reactorCores (this w))) (arrays w)) [] (Ok tt).

(** [this.reactorCores = cores'], for the in-place updates of that object *)
Definition assign_cores (cs : list (string * core)) : M unit := fun w =>
  Outcome (World (Reactor_ (state (this w)) cs) (arrays w)) [] (Ok tt).

(** *** Arrays *)

(** The elements of the array at [l]. *)
Definition elements_at (h : list (list message)) (l : loc) : list message :=
  default [] (h !! l).

(** [new Array(...)]: a fresh array, whose reference no caller holds yet. *)
Definition array_new (ms : list message) : M loc := fun w =>
  Outcome (World (this w) (arrays w ++ [ms])) [] (Ok (length (arrays w))).

(** [messages.length] *)
Definition array_length (l : loc) : M nat := fun w =>
  Outcome w [] (Ok (length (elements_at (arrays w) l))).

(** [messages.shift()]: removes the first element of the array, in place,
    and returns it; [undefined] on an empty array. *)
Definition array_shift (l : loc) : M (option message) := fun w =>
  match elements_at (arrays w) l with
  | [] => Outcome w [] (Ok None)
  | m :: rest => Outcome (World (this w) (<[l := rest]> (arrays w))) [] (Ok (Some m))
  end.

(** *** Plain objects used as dictionaries *)

(** The property names every plain object inherits from
    [Object.prototype]. *)
Definition Object_prototype : list string :=
  [ "constructor"; "toString"; "toLocaleString"; "valueOf"; "hasOwnProperty";
    "isPrototypeOf"; "propertyIsEnumerable"; "__proto__"; "__defineGetter__";
    "__defineSetter__"; "__lookupGetter__"; "__lookupSetter__" ].

Inductive property (A : Type) : Type :=
| Own (a : A)
| Inherited
| Absent.
Arguments Own {A} a.
Arguments Inherited {A}.
Arguments Absent {A}.

Fixpoint own {A} (obj : list (string * A)) (k : string) : option A :=
  match obj with
  | [] => None
  | (k', a) :: rest => if String.eqb k k' then Some a else own rest k
  end.

(** [obj[k]]: an own property, else one found on the prototype, else
    [undefined]. *)
Definition obj_get {A} (obj : list (string * A)) (k : string) : property A :=
  match own obj k with
  | Some a => Own a
  | None => if bool_decide (k ∈ Object_prototype) then Inherited else Absent
  end.

(** Truthiness of [obj[k]] when the own properties hold objects: only the
    absent property, which reads as [undefined], is falsy. *)
Definition property_truthy {A} (p : property A) : bool :=
  match p with Own _ | Inherited => true | Absent => false end.

(** [obj[k] = a]: an existing own property keeps its place, a new one is
    created after the others. *)
Fixpoint obj_set {A} (obj : list (string * A)) (k : string) (a : A)
  : list (string * A) :=
  match obj with
  | [] => [(k, a)]
  | (k', a') :: rest =>
      if String.eqb k k' then (k', a) :: rest else (k', a') :: obj_set rest k a
  end.

(** [delete obj[k]] *)
Definition obj_delete {A} (obj : list (string * A)) (k : string)
  : list (string * A) :=
  filter (fun kv => negb (String.eqb k (fst kv))) obj.

(** ** The collaborators required by Reactor.js *)

Module utils.

(** The argument of [cycle]: a lone message, or a reference to an array
    of messages. *)
Inductive messages : Type :=
| Lone (m : message)
| Batch (l : loc).

(** Modelled from the spec: [utils.coerceArray] is not under src.  A lone
    message becomes a one-element sequence; an array is already a
    sequence and is returned itself. *)
Definition coerceArray (a : messages) : M loc :=
  match a with
  | Batch l => ret l
  | Lone m => array_new [m]
  end.

(** Modelled from the spec: [utils.each] is not under src.  It calls
    [fn(value, key)] on every pair of the object, in the order of
    insertion.  The callback of [cycle] updates the builder it closes
    over, which is threaded through here as [acc]. *)
Fixpoint each {A S} (obj : list (string * A)) (fn : A → string → S → M S)
  (acc : S) : M S :=
  match obj with
  | [] => ret acc
  | (k, a) :: rest => acc' <- fn a k acc ;; each rest fn acc'
  end.

(** A path argument: a single key or an ordered sequence of keys. *)
Inductive path : Type :=
| Key (k : string)
| Keys (ks : list string).

(** Modelled from the spec: [utils.keyPath] is not under src.  A single
    key stands for the one-element path. *)
Definition keyPath (p : path) : list string :=
  match p with
  | Key k => [k]
  | Keys ks => ks
  end.

End utils.

Module immutable_helpers.

Definition isImmutable (v : value) : bool := Immutable.isCollection v.

(** Successive lookups inside a sub-state; an absent key yields
    [undefined]. *)
Fixpoint getIn (v : value) (ks : list string) : value :=
  match ks with
  | [] => v
  | k :: ks' =>
      match v with
      | IMap es =>
          match Immutable.assoc k es with
          | Some x => getIn x ks'
          | None => VUndefined
          end
      | _ => VUndefined
      end
  end.

(** Modelled from the spec: [immutable-helpers.get] is not under src.
    Path-addressed get on the state tree; the empty path is the tree. *)
Definition get (st : tree) (ks : list string) : value :=
  match ks with
  | [] => IMap (map_to_list st)
  | k :: ks' =>
      match st !! k with
      | Some v => getIn v ks'
      | None => VUndefined
      end
  end.

(** Modelled from the spec: [immutable-helpers.toJS] is not under src.
    Deep conversion to a plain value. *)
Definition toJS (v : value) : value :=
  if isImmutable v then Immutable.toJS v else v.

(** Modelled from the spec: [immutable-helpers.mutate] is not under src.
    The callback receives a temporarily mutable builder that starts as
    [st]; the builder it leaves is the new root, and [st] itself is never
    changed.  An exception in the callback leaves the scope without a
    result. *)
Definition mutate (st : tree) (fn : tree → M tree) : M tree := fn st.

End immutable_helpers.

Module logging.
Definition cycleStart (m : option message) : M unit := emit (LogCycleStart m).
Definition coreReact (id : string) (old new : value) : M unit :=
  emit (LogCoreReact id old new).
Definition cycleEnd (st : tree) : M unit := emit (LogCycleEnd st).
End logging.

(** ** The class Reactor *)

Module Reactor.

(** [constructor()] *)
Definition constructor : Reactor := Reactor_ ∅ [].

(** [getImmutable(keyPath)] *)
Definition getImmutable (keyPath : utils.path) : M value :=
  r <- read_this ;;
  ret (immutable_helpers.get (state r) (utils.keyPath keyPath)).

(** [get(keyPath)] *)
Definition get (keyPath : utils.path) : M value :=
  v <- getImmutable keyPath ;;
  ret (immutable_helpers.toJS v).

(** [this.outputStream.write(st)] *)
Definition outputStream_write (st : tree) : M unit := emit (StreamWrite st).

(** [state.get(id)] on the builder *)
Definition builder_get (st : tree) (id : string) : value :=
  default VUndefined (st !! id).

(** [core.react(reactorState, ty, pl)] *)
Definition call_react (id : string) (c : core) (sub ty pl : value) : M value :=
  fun w => let res := react c sub ty pl in Outcome w [CallReact id sub ty pl res] res.

(** [core.initialize()] *)
Definition call_initialize (id : string) (c : core) : M value :=
  fun w => let res := initialize c in Outcome w [CallInitialize id res] res.

(** [message.type] and [message.payload], as read in the callback *)
Definition read_message (m : option message) : M (value * value) :=
  match m with
  | Some m => ret (type m, payload m)
  | None => throw (TypeError "Cannot read property 'type' of undefined")
  end.

(** The callback handed to [each] in [cycle] (lines 83-94). *)
Definition react_core (m : option message) (c : core) (id : string)
  (st : tree) : M tree :=
  reactorState <- (fun w => Outcome w [] (Immutable.asImmutable (builder_get st id))) ;;
  tp <- read_message m ;;
  newState <- call_react id c reactorState (fst tp) (snd tp) ;;
  let st' := <[id := newState]> st in
  logging.coreReact id reactorState newState ;;
  ret st'.

(** The loop of [cycle] (lines 78-97), on the builder [st].  Every turn
    shifts one element off the array, so [fuel] turns suffice for an array
    of [fuel] elements. *)
Fixpoint drain (fuel : nat) (messages : loc) (cores : list (string * core))
  (st : tree) : M tree :=
  match fuel with
  | O => ret st
  | S fuel' =>
      len <- array_length messages ;;
      if (0 <? len)%nat then
        m <- array_shift messages ;;
        logging.cycleStart m ;;
        st' <- utils.each cores (react_core m) st ;;
        logging.cycleEnd st' ;;
        drain fuel' messages cores st'
      else ret st
  end.

(** [cycle(messages)].  The loop is given as many turns as the array has
    elements when it starts; [drain_fuel_irrelevant] shows that more turns
    change nothing. *)
Definition cycle (messages : utils.messages) : M unit :=
  messages <- utils.coerceArray messages ;;
  r <- read_this ;;
  let state0 := state r in
  let cores := reactorCores r in
  n <- array_length messages ;;
  new <- immutable_helpers.mutate state0 (drain n messages cores) ;;
  assign_state new ;;
  r' <- read_this ;;
  outputStream_write (state r').

(** [attachCore(id, core)] *)
Definition attachCore (id : string) (core : candidate) : M unit :=
  r <- read_this ;;
  if property_truthy (obj_get (reactorCores r) id) then
    throw (Error "Only one reactor can be registered per id")
  else
    c <- match core with
         | Instance c => ret c
         | Other _ => throw (ReferenceError "Core is not defined")
         end ;;
    res <- call_initialize id c ;;
    let initialState := js_or res (VObject []) in
    r1 <- read_this ;;
    assign_state (<[id := Immutable.fromJS initialState]> (state r1)) ;;
    r2 <- read_this ;;
    assign_cores (obj_set (reactorCores r2) id c).

(** [unattachCore(id)] *)
Definition unattachCore (id : string) : M unit :=
  r <- read_this ;;
  assign_cores (obj_delete (reactorCores r) id).

(** The input stream hands every written chunk to [cycle]. *)
Definition inputStream_write (msg : utils.messages) : M unit := cycle msg.

End Reactor.

(** ** The addition operator, for the cores of the examples *)

Module Operators.

Definition quote : string := String (Ascii.ascii_of_nat 34) EmptyString.

(** [String(v)], with the [toString] of the persistent collections. *)
Fixpoint ToString (v : value) : string :=
  match v with
  | VUndefined => "undefined"
  | VNull => "null"
  | VBool true => "true"
  | VBool false => "false"
  | VNum n => pretty n
  | VNaN => "NaN"
  | VStr s => s
  | VObject _ => "[object Object]"
  | VArray xs =>
      String.concat ","
        (map (fun x => match x with
                       | VUndefined | VNull => EmptyString
                       | _ => ToString x
                       end) xs)
  | IMap [] => "Map {}"
  | IMap es =>
      "Map { " ++
      String.concat ", "
        (map (fun kv => match kv with
                        | (k, VStr s) => quote ++ k ++ quote ++ ": " ++ quote ++ s ++ quote
                        | (k, x) => quote ++ k ++ quote ++ ": " ++ ToString x
                        end) es)
      ++ " }"
  | IList [] => "List []"
  | IList xs =>
      "List [ " ++
      String.concat ", "
        (map (fun x => match x with
                       | VStr s => quote ++ s ++ quote
                       | _ => ToString x
                       end) xs)
      ++ " ]"
  end.

(** ToPrimitive: an object is replaced by its string form. *)
Definition ToPrimitive (v : value) : value :=
  match v with
  | VObject _ | VArray _ | IMap _ | IList _ => VStr (ToString v)
  | _ => v
  end.

(** ToNumber on the primitives that are not strings; [None] is NaN. *)
Definition ToNumber (v : value) : option Z :=
  match v with
  | VNull => Some 0%Z
  | VBool true => Some 1%Z
  | VBool false => Some 0%Z
  | VNum n => Some n
  | _ => None
  end.

(** [a + b]: concatenation as soon as one primitive operand is a string,
    numeric addition otherwise. *)
Definition add (a b : value) : value :=
  let pa := ToPrimitive a in
  let pb := ToPrimitive b in
  match pa, pb with
  | VStr _, _ | _, VStr _ => VStr (ToString pa ++ ToString pb)
  | _, _ =>
      match ToNumber pa, ToNumber pb with
      | Some x, Some y => VNum (x + y)
      | _, _ => VNaN
      end
  end.

End Operators.

(** ** What a run of the loop amounts to *)

(** The events and the completion of one pass of [each] over the registry
    for the message [m], from the builder [st]. *)
Fixpoint each_run (cores : list (string * core)) (m : message) (st : tree)
  : list event * result tree :=
  match cores with
  | [] => ([], Ok st)
  | (id, c) :: rest =>
      match Immutable.asImmutable (Reactor.builder_get st id) with
      | Throw e => ([], Throw e)
      | Ok sub =>
          let res := react c sub (type m) (payload m) in
          match res with
          | Throw e => ([CallReact id sub (type m) (payload m) res], Throw e)
          | Ok new =>
              let rec := each_run rest m (<[id := new]> st) in
              (CallReact id sub (type m) (payload m) res
                 :: LogCoreReact id sub new :: rec.1, rec.2)
          end
      end
  end.

(** The events, the messages left in the array and the completion of the
    loop on an array that holds [msgs]. *)
Fixpoint drain_run (cores : list (string * core)) (msgs : list message)
  (st : tree) : list event * list message * result tree :=
  match msgs with
  | [] => ([], [], Ok st)
  | m :: rest =>
      let pass := each_run cores m st in
      match pass.2 with
      | Throw e => (LogCycleStart (Some m) :: pass.1, rest, Throw e)
      | Ok st' =>
          let rec := drain_run cores rest st' in
          (LogCycleStart (Some m) :: pass.1 ++ LogCycleEnd st' :: rec.1.1,
           rec.1.2, rec.2)
      end
  end.

(** The messages a call of [cycle] receives. *)
Definition batch_of (w : world) (a : utils.messages) : list message :=
  match a with
  | utils.Lone m => [m]
  | utils.Batch l => elements_at (arrays w) l
  end.

(** The arrays after a call of [cycle] that leaves [rem] in its batch. *)
Definition arrays_after (w : world) (a : utils.messages) (rem : list message)
  : list (list message) :=
  match a with
  | utils.Batch l => <[l := rem]> (arrays w)
  | utils.Lone _ => arrays w ++ [rem]
  end.

(** The snapshots written to the output stream. *)
Definition published (evs : list event) : list tree :=
  omap (fun e => match e with StreamWrite st => Some st | _ => None end) evs.

(** The messages whose processing was started. *)
Definition started (evs : list event) : list message :=
  omap (fun e => match e with LogCycleStart m => m | _ => None end) evs.

(** The completions of the calls to [initialize]. *)
Definition initializations (evs : list event) : list (result value) :=
  omap (fun e => match e with CallInitialize _ r => Some r | _ => None end) evs.

(** ** The fold of the specification *)

(** One core applied to its own sub-state for one message, the returned
    value written back as the whole sub-state at the core's id. *)
Definition spec_apply (m : message) (st : tree) (entry : string * core) : tree :=
  match react entry.2 (Reactor.builder_get st entry.1) (type m) (payload m) with
  | Ok v => <[entry.1 := v]> st
  | Throw _ => st
  end.

(** Every message in submission order, and for each of them every core in
    the order of the registry. *)
Definition spec_fold (cores : list (string * core)) (msgs : list message)
  (st : tree) : tree :=
  fold_left (fun st m => fold_left (spec_apply m) cores st) msgs st.

(** The step of [spec_apply] is one that [cycle] can make: the sub-state it
    reads is a persistent collection and [react] returns. *)
Definition spec_applicable (m : message) (st : tree) (entry : string * core) : bool :=
  Immutable.isCollection (Reactor.builder_get st entry.1)
  && is_Ok (react entry.2 (Reactor.builder_get st entry.1) (type m) (payload m)).

Definition checked_apply (m : message) (acc : tree * bool) (entry : string * core)
  : tree * bool :=
  (spec_apply m acc.1 entry, acc.2 && spec_applicable m acc.1 entry).

(** Every step of the fold is applicable. *)
Definition spec_defined (cores : list (string * core)) (msgs : list message)
  (st : tree) : bool :=
  (fold_left (fun acc m => fold_left (checked_apply m) cores acc) msgs (st, true)).2.

(** ** Sequences of operations on a store *)

Inductive op : Type :=
| Attach (id : string) (c : candidate)
| Unattach (id : string)
| Cycle (a : utils.messages)
| NewArray (ms : list message).

Definition run_op (o : op) : M unit :=
  match o with
  | Attach id c => Reactor.attachCore id c
  | Unattach id => Reactor.unattachCore id
  | Cycle a => Reactor.cycle a
  | NewArray ms => (_ <- array_new ms ;; ret tt)
  end.

(** The caller goes on after an exception: the store is left as the failed
    call left it. *)
Definition exec (ops : list op) (w : world) : world :=
  fold_left (fun w o => after (run_op o w)) ops w.

Definition initial : world := World Reactor.constructor [].

(** ** Cores and messages of the examples *)

Module Examples.

(** [{type: 'INCREMENT', payload: n}] *)
Definition increment (n : Z) : message := Message (VStr "INCREMENT") (VNum n).

(** The counter of the specification: [initialize() -> init] and
    [react(state, 'INCREMENT', n) -> state + n]; any other message type
    leaves the state as it is. *)
Definition counter (init : value) : core :=
  Core_ (Ok init)
    (fun st ty pl =>
       match ty with
       | VStr "INCREMENT" => Ok (Operators.add st pl)
       | _ => Ok st
       end).

(** A counter kept in a mapping: [initialize() -> {count: 0}] and
    [react(state, 'INCREMENT', n) ->
       state.set('count', state.get('count') + n)]. *)
Definition tally : core :=
  Core_ (Ok (VObject [("count", VNum 0)]))
    (fun st ty pl =>
       match ty, st with
       | VStr "INCREMENT", IMap es =>
           let count := default VUndefined (Immutable.assoc "count" es) in
           Ok (IMap (Immutable.set "count" (Operators.add count pl) es))
       | VStr "INCREMENT", _ => Throw (TypeError "undefined is not a function")
       | _, _ => Ok st
       end).

(** A core whose [react] raises on every message. *)
Definition faulty : core :=
  Core_ (Ok (VObject [])) (fun _ _ _ => Throw (Raised (VStr "boom"))).

(** A caller that holds the array [[INCREMENT 1, INCREMENT 2]] and a
    fresh store. *)
Definition fresh : world := World Reactor.constructor [[increment 1; increment 2]].

End Examples.

(** ** Invariants and comparisons used below *)

(** Every id of the registry has an entry in the state tree. *)
Definition seeded (w : world) : Prop :=
  ∀ id c, (id, c) ∈ reactorCores (this w) → is_Some (state (this w) !! id).

(** Two completions of the loop that agree: both return the same tree, or
    both raise. *)
Definition same_tree (r1 r2 : result tree) : Prop :=
  match r1, r2 with
  | Ok t1, Ok t2 => t1 = t2
  | Throw _, Throw _ => True
  | _, _ => False
  end.

(** ** Notions used to describe runs of the store *)

(** The messages of a batch handed to [cycle] one at a time, each as a
    lone message, the caller going on after an exception. *)
Definition dispatch_each (msgs : list message) (w : world) : world :=
  fold_left (fun w m => after (Reactor.cycle (utils.Lone m) w)) msgs w.

(** The calls made to [react], in order: the id of the core and the type
    and payload it was handed. *)
Definition reacted (evs : list event) : list (string * value * value) :=
  omap (fun e => match e with
                 | CallReact id _ ty pl _ => Some (id, ty, pl)
                 | _ => None
                 end) evs.

(** The calls that [each] makes for one message on a pass that completes. *)
Definition calls_for (cores : list (string * core)) (m : message)
  : list (string * value * value) :=
  map (fun entry => (entry.1, type m, payload m)) cores.

(** A plain value: no persistent collection at any depth. *)
Fixpoint plain (v : value) : bool :=
  match v with
  | VObject fs => forallb (fun kv => match kv with (_, x) => plain x end) fs
  | VArray xs => forallb plain xs
  | IMap _ | IList _ => false
  | _ => true
  end.

(** A core whose [react] returns a persistent collection whenever it is
    handed one. *)
Definition closed_on_collections (c : core) : Prop :=
  ∀ sub ty pl, Immutable.isCollection sub = true →
    ∃ new, react c sub ty pl = Ok new ∧ Immutable.isCollection new = true.

(** Every registered id holds a persistent collection in the tree [st]. *)
Definition collections_at (cores : list (string * core)) (st : tree) : Prop :=
  ∀ id c, (id, c) ∈ cores → Immutable.isCollection (Reactor.builder_get st id) = true.

(** ** The loop and its denotation *)

Arguments elements_at : simpl never.

Lemma react_core_denotes m c id st w :
  Reactor.react_core (Some m) c id st w
  = match Immutable.asImmutable (Reactor.builder_get st id) with
    | Throw e => Outcome w [] (Throw e)
    | Ok sub =>
        match react c sub (type m) (payload m) with
        | Throw e =>
            Outcome w [CallReact id sub (type m) (payload m) (Throw e)] (Throw e)
        | Ok new =>
            Outcome w [CallReact id sub (type m) (payload m) (Ok new);
                       LogCoreReact id sub new] (Ok (<[id := new]> st))
        end
    end.
Proof.
  unfold Reactor.react_core, bind, Reactor.call_react, logging.coreReact, emit, ret.
  cbn. destruct (Immutable.asImmutable _) as [sub|e]; cbn; [|done].
  by destruct (react c sub (type m) (payload m)).
Qed.

Lemma each_denotes cores m st w :
  utils.each cores (Reactor.react_core (Some m)) st w
  = Outcome w (each_run cores m st).1 (each_run cores m st).2.
Proof.
  revert st. induction cores as [|[id c] rest IH]; intros st; [reflexivity|].
  cbn [utils.each each_run]. unfold bind. rewrite react_core_denotes.
  destruct (Immutable.asImmutable (Reactor.builder_get st id)) as [sub|e]; [|done].
  destruct (react c sub (type m) (payload m)) as [new|e]; [|done].
  cbn. by rewrite IH.
Qed.

Lemma elements_at_insert h l rest :
  elements_at h l ≠ [] → elements_at (<[l := rest]> h) l = rest.
Proof.
  unfold elements_at. intros H.
  destruct (h !! l) as [ms|] eqn:E; [|done].
  rewrite list_lookup_insert_eq; [done|]. by eapply lookup_lt_Some.
Qed.

Lemma insert_elements_at h l ms : elements_at h l = ms → <[l := ms]> h = h.
Proof.
  unfold elements_at. intros <-. destruct (h !! l) as [ms|] eqn:E; cbn.
  - by apply list_insert_id.
  - apply list_insert_ge. by apply lookup_ge_None.
Qed.

Lemma drain_S n l cores st w :
  Reactor.drain (S n) l cores st w
  = match elements_at (arrays w) l with
    | [] => Outcome w [] (Ok st)
    | m :: rest =>
        let w1 := World (this w) (<[l := rest]> (arrays w)) in
        let pass := each_run cores m st in
        match pass.2 with
        | Throw e => Outcome w1 (LogCycleStart (Some m) :: pass.1) (Throw e)
        | Ok st' =>
            let o := Reactor.drain n l cores st' w1 in
            Outcome (after o)
              (LogCycleStart (Some m) :: pass.1 ++ LogCycleEnd st' :: emitted o)
              (completion o)
        end
    end.
Proof.
  cbn [Reactor.drain]. unfold bind, array_length, array_shift.
  destruct (elements_at (arrays w) l) as [|m rest] eqn:E; [done|].
  cbn [length Nat.ltb Nat.leb]. rewrite E.
  unfold logging.cycleStart, logging.cycleEnd, emit.
  rewrite each_denotes.
  destruct (each_run cores m st) as [evs [st'|e]]; cbn; [|done].
  by destruct (Reactor.drain n l cores st' _).
Qed.

Lemma drain_denotes n l cores st w :
  (length (elements_at (arrays w) l) ≤ n)%nat →
  Reactor.drain n l cores st w
  = let run := drain_run cores (elements_at (arrays w) l) st in
    Outcome (World (this w) (<[l := run.1.2]> (arrays w))) run.1.1 run.2.
Proof.
  revert st w. induction n as [|n IH]; intros st w Hlen.
  - destruct (elements_at (arrays w) l) as [|m rest] eqn:E; [|cbn in Hlen; lia].
    cbn. rewrite (insert_elements_at _ _ _ E). by destruct w.
  - rewrite drain_S.
    destruct (elements_at (arrays w) l) as [|m rest] eqn:E.
    + cbn. rewrite (insert_elements_at _ _ _ E). by destruct w.
    + cbn [drain_run]. cbn zeta.
      destruct (each_run cores m st) as [evs [st'|e]]; cbn [fst snd]; [|done].
      assert (Hrest : elements_at (<[l:=rest]> (arrays w)) l = rest).
      { apply elements_at_insert. by rewrite E. }
      rewrite IH; cbn [arrays this]; rewrite Hrest; [|cbn in Hlen; lia].
      cbn zeta. cbn [completion after emitted].
      by rewrite list_insert_insert_eq.
Qed.

Lemma cycle_denotes a w :
  Reactor.cycle a w
  = let run := drain_run (reactorCores (this w)) (batch_of w a) (state (this w)) in
    match run.2 with
    | Ok new =>
        Outcome (World (Reactor_ new (reactorCores (this w)))
                   (arrays_after w a run.1.2))
          (run.1.1 ++ [StreamWrite new]) (Ok tt)
    | Throw e =>
        Outcome (World (this w) (arrays_after w a run.1.2)) run.1.1 (Throw e)
    end.
Proof.
  unfold Reactor.cycle, immutable_helpers.mutate.
  destruct a as [m|l]; cbn [utils.coerceArray batch_of arrays_after].
  - unfold bind, array_new, read_this, array_length.
    set (w1 := World (this w) (arrays w ++ [[m]])).
    assert (E : elements_at (arrays w1) (length (arrays w)) = [m]).
    { unfold elements_at, w1. cbn. by rewrite lookup_app_r, Nat.sub_diag. }
    rewrite drain_denotes; rewrite E; [|done].
    cbn zeta.
    assert (Hins : ∀ rem, <[length (arrays w) := rem]> (arrays w1) = (arrays w ++ [rem])%list).
    { intros rem. unfold w1. cbn [arrays].
      rewrite insert_app_r_alt, Nat.sub_diag; done. }
    destruct (drain_run _ [m] _) as [[evs rem] [new|e]]; cbn [fst snd].
    + cbn. by rewrite Hins.
    + cbn. by rewrite Hins.
  - unfold bind, ret, read_this, array_length.
    rewrite drain_denotes; [|done].
    cbn zeta.
    destruct (drain_run _ _ _) as [[evs rem] [new|e]]; cbn [fst snd]; cbn; done.
Qed.

(** ** Properties of a run *)

Lemma asImmutable_Ok v sub :
  Immutable.asImmutable v = Ok sub → sub = v ∧ Immutable.isCollection v = true.
Proof. destruct v; cbn; intros H; by inversion H. Qed.

Lemma asImmutable_Throw v e :
  Immutable.asImmutable v = Throw e → Immutable.isCollection v = false.
Proof. destruct v; cbn; intros H; by inversion H. Qed.

Lemma checked_fst m cores acc :
  (fold_left (checked_apply m) cores acc).1 = fold_left (spec_apply m) cores acc.1.
Proof.
  revert acc. induction cores as [|entry rest IH]; intros acc; [done|].
  cbn [fold_left]. by rewrite IH.
Qed.

Lemma checked_false m cores acc :
  acc.2 = false → (fold_left (checked_apply m) cores acc).2 = false.
Proof.
  revert acc. induction cores as [|entry rest IH]; intros acc H; [done|].
  cbn [fold_left]. apply IH. cbn. by rewrite H.
Qed.

Lemma checked_fold_fst cores msgs acc :
  (fold_left (fun acc m => fold_left (checked_apply m) cores acc) msgs acc).1
  = spec_fold cores msgs acc.1.
Proof.
  revert acc. induction msgs as [|m rest IH]; intros acc; [done|].
  cbn [fold_left spec_fold]. rewrite IH. by rewrite checked_fst.
Qed.

Lemma checked_fold_false cores msgs acc :
  acc.2 = false →
  (fold_left (fun acc m => fold_left (checked_apply m) cores acc) msgs acc).2 = false.
Proof.
  revert acc. induction msgs as [|m rest IH]; intros acc H; [done|].
  cbn [fold_left]. apply IH. by apply checked_false.
Qed.

Lemma each_run_checked cores m st b :
  match (each_run cores m st).2 with
  | Ok st' => fold_left (checked_apply m) cores (st, b) = (st', b)
  | Throw _ => (fold_left (checked_apply m) cores (st, b)).2 = false
  end.
Proof.
  revert st. induction cores as [|[id c] rest IH]; intros st; [done|].
  cbn [each_run fold_left]. unfold checked_apply at 2 4.
  unfold spec_applicable, spec_apply. cbn [fst snd].
  destruct (Immutable.asImmutable (Reactor.builder_get st id)) as [sub|e] eqn:E.
  - apply asImmutable_Ok in E as [-> E]. rewrite E.
    destruct (react c _ (type m) (payload m)) as [new|e']; cbn [fst snd is_Ok].
    + rewrite andb_true_r. apply IH.
    + apply checked_false. cbn. by rewrite andb_false_r.
  - apply asImmutable_Throw in E. rewrite E. cbn [fst snd].
    apply checked_false. cbn. by rewrite andb_false_r.
Qed.

Lemma drain_run_checked cores msgs st b :
  match (drain_run cores msgs st).2 with
  | Ok st' =>
      fold_left (fun acc m => fold_left (checked_apply m) cores acc) msgs (st, b)
      = (st', b)
  | Throw _ =>
      (fold_left (fun acc m => fold_left (checked_apply m) cores acc) msgs (st, b)).2
      = false
  end.
Proof.
  revert st. induction msgs as [|m rest IH]; intros st; [done|].
  cbn [drain_run fold_left]. cbn zeta.
  pose proof (each_run_checked cores m st b) as Hpass.
  destruct (each_run cores m st) as [evs [st'|e]]; cbn [fst snd] in *.
  - rewrite Hpass. apply IH.
  - by apply checked_fold_false.
Qed.

(** The loop completes exactly when every step of the fold is applicable,
    and then leaves the tree of the fold. *)
Lemma drain_run_spec cores msgs st :
  if spec_defined cores msgs st
  then (drain_run cores msgs st).2 = Ok (spec_fold cores msgs st)
  else ∃ e, (drain_run cores msgs st).2 = Throw e.
Proof.
  unfold spec_defined.
  pose proof (drain_run_checked cores msgs st true) as H.
  pose proof (checked_fold_fst cores msgs (st, true)) as Hfst.
  destruct (drain_run cores msgs st) as [[evs rem] [st'|e]]; cbn [fst snd] in *.
  - rewrite H in Hfst |- *. cbn in *. by subst.
  - rewrite H. eauto.
Qed.

Lemma each_run_quiet cores m st :
  published (each_run cores m st).1 = []
  ∧ started (each_run cores m st).1 = []
  ∧ initializations (each_run cores m st).1 = [].
Proof.
  revert st. induction cores as [|[id c] rest IH]; intros st; [done|].
  cbn [each_run].
  destruct (Immutable.asImmutable _) as [sub|e]; [|done].
  destruct (react c sub (type m) (payload m)) as [new|e]; [|done].
  cbn. apply IH.
Qed.

Lemma published_app evs1 evs2 :
  published (evs1 ++ evs2) = (published evs1 ++ published evs2)%list.
Proof. unfold published. apply omap_app. Qed.

Lemma started_app evs1 evs2 :
  started (evs1 ++ evs2) = (started evs1 ++ started evs2)%list.
Proof. unfold started. apply omap_app. Qed.

Lemma initializations_app evs1 evs2 :
  initializations (evs1 ++ evs2)
  = (initializations evs1 ++ initializations evs2)%list.
Proof. unfold initializations. apply omap_app. Qed.

(** The loop writes nothing to the output stream, starts the messages it
    removes and no other, and empties the array when it completes. *)
Lemma drain_run_effects cores msgs st :
  let run := drain_run cores msgs st in
  published run.1.1 = []
  ∧ initializations run.1.1 = []
  ∧ msgs = (started run.1.1 ++ run.1.2)%list
  ∧ (is_Ok run.2 = true → run.1.2 = [])
  ∧ (is_Ok run.2 = false → started run.1.1 ≠ []).
Proof.
  revert st. induction msgs as [|m rest IH]; intros st; [done|].
  cbn [drain_run]. cbn zeta.
  destruct (each_run_quiet cores m st) as (Hp & Hs & Hi).
  destruct (each_run cores m st) as [evs [st'|e]]; cbn [fst snd] in *.
  - destruct (IH st') as (IHp & IHi & IHs & IHok & IHthrow).
    change (LogCycleStart (Some m) :: evs ++ LogCycleEnd st' :: ?t)
      with ([LogCycleStart (Some m)] ++ evs ++ [LogCycleEnd st'] ++ t)%list.
    rewrite !published_app, !initializations_app, !started_app, Hp, Hs, Hi.
    cbn. repeat split; try done. by f_equal.
  - change (LogCycleStart (Some m) :: evs)
      with ([LogCycleStart (Some m)] ++ evs)%list.
    rewrite !published_app, !initializations_app, !started_app, Hp, Hs, Hi.
    cbn. done.
Qed.

(** An exception raised by [react] is the completion of the loop. *)
Lemma each_run_raise cores m st id sub ty pl e :
  CallReact id sub ty pl (Throw e) ∈ (each_run cores m st).1 →
  (each_run cores m st).2 = Throw e.
Proof.
  revert st. induction cores as [|[id' c] rest IH]; intros st; cbn [each_run].
  - cbn. by intros ?%elem_of_nil.
  - destruct (Immutable.asImmutable _) as [sub'|e'].
    2:{ cbn. by intros ?%elem_of_nil. }
    destruct (react c sub' (type m) (payload m)) as [new|e'] eqn:E; cbn [fst snd].
    + rewrite !elem_of_cons. intros [H|[H|H]]; [by inversion H|by inversion H|].
      by apply IH.
    + rewrite list_elem_of_singleton. intros H. by inversion H.
Qed.

Lemma each_run_Ok_no_raise cores m st st' id sub ty pl e :
  (each_run cores m st).2 = Ok st' →
  CallReact id sub ty pl (Throw e) ∉ (each_run cores m st).1.
Proof. intros H Hin. apply each_run_raise in Hin. congruence. Qed.

Lemma drain_run_raise cores msgs st id sub ty pl e :
  CallReact id sub ty pl (Throw e) ∈ (drain_run cores msgs st).1.1 →
  (drain_run cores msgs st).2 = Throw e.
Proof.
  revert st. induction msgs as [|m rest IH]; intros st; cbn [drain_run].
  - cbn. by intros ?%elem_of_nil.
  - cbn zeta.
    pose proof (each_run_raise cores m st id sub ty pl e) as Hraise.
    pose proof (λ st', each_run_Ok_no_raise cores m st st' id sub ty pl e) as Hno.
    destruct (each_run cores m st) as [evs [st'|e']]; cbn [fst snd] in *.
    + rewrite elem_of_cons, elem_of_app, elem_of_cons.
      intros [H|[H|[H|H]]]; [by inversion H| |by inversion H|by apply IH].
      by destruct (Hno st' eq_refl).
    + rewrite elem_of_cons. intros [H|H]; [by inversion H|]. by apply Hraise.
Qed.

(** ** The registry object *)

Lemma own_elem_of {A} (obj : list (string * A)) k a :
  (k, a) ∈ obj → is_Some (own obj k).
Proof.
  induction obj as [|[k' a'] rest IH]; [by intros ?%elem_of_nil|].
  rewrite elem_of_cons. cbn [own]. intros [H|H].
  - inversion H; subst. by rewrite String.eqb_refl.
  - destruct (String.eqb k k'); [done|]. by apply IH.
Qed.

Lemma own_Some_elem_of {A} (obj : list (string * A)) k a :
  own obj k = Some a → (k, a) ∈ obj.
Proof.
  induction obj as [|[k' a'] rest IH]; [done|]. cbn [own].
  destruct (String.eqb k k') eqn:E.
  - apply String.eqb_eq in E as ->. intros [= ->]. apply list_elem_of_here.
  - intros H. apply list_elem_of_further. by apply IH.
Qed.

Lemma obj_get_registered {A} (obj : list (string * A)) k a :
  (k, a) ∈ obj → property_truthy (obj_get obj k) = true.
Proof.
  intros [a' H]%own_elem_of. unfold obj_get. by rewrite H.
Qed.

Lemma own_obj_set {A} (obj : list (string * A)) k a :
  own (obj_set obj k a) k = Some a.
Proof.
  induction obj as [|[k' a'] rest IH]; cbn.
  - by rewrite String.eqb_refl.
  - destruct (String.eqb k k') eqn:E; cbn; rewrite E; [done|apply IH].
Qed.

Lemma elem_of_obj_set {A} (obj : list (string * A)) k a k' a' :
  (k', a') ∈ obj_set obj k a → (k', a') ∈ obj ∨ k' = k.
Proof.
  induction obj as [|[k0 a0] rest IH]; cbn.
  - rewrite list_elem_of_singleton. intros [= -> ->]. by right.
  - destruct (String.eqb k k0) eqn:E; rewrite !elem_of_cons.
    + apply String.eqb_eq in E as ->. intros [[= -> ->]|H]; [by right|].
      left. by right.
    + intros [H|H]; [left; by left|].
      destruct (IH H) as [?|?]; [left; by right|by right].
Qed.

Lemma elem_of_obj_delete {A} (obj : list (string * A)) k k' a' :
  (k', a') ∈ obj_delete obj k → (k', a') ∈ obj ∧ k' ≠ k.
Proof.
  unfold obj_delete. rewrite list_elem_of_filter. cbn.
  intros [Hne Hin]. split; [done|]. intros ->.
  by rewrite String.eqb_refl in Hne.
Qed.

(** ** attachCore and unattachCore in closed form *)

Lemma attachCore_denotes id cand w :
  Reactor.attachCore id cand w
  = if property_truthy (obj_get (reactorCores (this w)) id)
    then Outcome w [] (Throw (Error "Only one reactor can be registered per id"))
    else
      match cand with
      | Other _ => Outcome w [] (Throw (ReferenceError "Core is not defined"))
      | Instance c =>
          match initialize c with
          | Throw e => Outcome w [CallInitialize id (Throw e)] (Throw e)
          | Ok v =>
              Outcome
                (World
                   (Reactor_
                      (<[id := Immutable.fromJS (js_or v (VObject []))]>
                         (state (this w)))
                      (obj_set (reactorCores (this w)) id c))
                   (arrays w))
                [CallInitialize id (Ok v)] (Ok tt)
          end
      end.
Proof.
  unfold Reactor.attachCore, bind, read_this.
  destruct (property_truthy _); [done|].
  destruct cand as [c|v]; cbn; [|done].
  unfold Reactor.call_initialize. by destruct (initialize c).
Qed.

Lemma unattachCore_denotes id w :
  Reactor.unattachCore id w
  = Outcome (World (Reactor_ (state (this w)) (obj_delete (reactorCores (this w)) id))
               (arrays w)) [] (Ok tt).
Proof. reflexivity. Qed.

(** ** Entries of the state tree are never removed *)

Lemma each_run_keeps cores m st st' k :
  (each_run cores m st).2 = Ok st' → is_Some (st !! k) → is_Some (st' !! k).
Proof.
  revert st. induction cores as [|[id c] rest IH]; intros st; cbn [each_run].
  - by intros [= ->].
  - destruct (Immutable.asImmutable _) as [sub|e]; [|done].
    destruct (react c sub (type m) (payload m)) as [new|e]; [|done].
    cbn [snd]. intros H Hk. apply (IH _ H).
    rewrite lookup_insert. by case_decide.
Qed.

Lemma each_run_writes cores m st st' id c :
  (each_run cores m st).2 = Ok st' → (id, c) ∈ cores → is_Some (st' !! id).
Proof.
  revert st. induction cores as [|[id' c'] rest IH]; intros st; cbn [each_run].
  - by intros _ ?%elem_of_nil.
  - destruct (Immutable.asImmutable _) as [sub|e]; [|done].
    destruct (react c' sub (type m) (payload m)) as [new|e]; [|done].
    cbn [snd]. intros H. rewrite elem_of_cons. intros [[= -> ->]|Hin].
    + apply (each_run_keeps _ _ _ _ _ H). by rewrite lookup_insert_eq.
    + by apply (IH _ H).
Qed.

Lemma drain_run_keeps cores msgs st st' k :
  (drain_run cores msgs st).2 = Ok st' → is_Some (st !! k) → is_Some (st' !! k).
Proof.
  revert st. induction msgs as [|m rest IH]; intros st; cbn [drain_run].
  - by intros [= ->].
  - cbn zeta. pose proof (each_run_keeps cores m st) as Hpass.
    destruct (each_run cores m st) as [evs [st1|e]]; cbn [fst snd] in *; [|done].
    intros H Hk. apply (IH _ H). by apply Hpass.
Qed.

Lemma run_op_keeps o w k :
  is_Some (state (this w) !! k) → is_Some (state (this (after (run_op o w))) !! k).
Proof.
  intros Hk. destruct o as [id cand|id|a|ms]; cbn [run_op].
  - rewrite attachCore_denotes. destruct (property_truthy _); [done|].
    destruct cand as [c|v]; [|done]. destruct (initialize c); [|done].
    cbn. rewrite lookup_insert. by case_decide.
  - done.
  - rewrite cycle_denotes. cbn zeta.
    pose proof (drain_run_keeps (reactorCores (this w)) (batch_of w a)
                  (state (this w))) as Hrun.
    destruct (drain_run _ _ _) as [[evs rem] [new|e]]; cbn [fst snd] in *; [|done].
    cbn. by apply Hrun.
  - done.
Qed.

Lemma exec_keeps ops w k :
  is_Some (state (this w) !! k) → is_Some (state (this (exec ops w)) !! k).
Proof.
  revert w. induction ops as [|o ops IH]; intros w Hk; [done|].
  cbn [exec fold_left]. apply IH. by apply run_op_keeps.
Qed.

Lemma run_op_seeded o w : seeded w → seeded (after (run_op o w)).
Proof.
  intros Hw. destruct o as [id cand|id|a|ms]; cbn [run_op].
  - rewrite attachCore_denotes. destruct (property_truthy _); [done|].
    destruct cand as [c|v]; [|done]. destruct (initialize c); [|done].
    intros id' c'. cbn. intros [Hin| ->]%elem_of_obj_set.
    + rewrite lookup_insert. case_decide; [done|]. by eapply Hw.
    + by rewrite lookup_insert_eq.
  - intros id' c'. cbn. intros [Hin _]%elem_of_obj_delete. by eapply Hw.
  - rewrite cycle_denotes. cbn zeta.
    pose proof (drain_run_keeps (reactorCores (this w)) (batch_of w a)
                  (state (this w))) as Hrun.
    destruct (drain_run _ _ _) as [[evs rem] [new|e]]; cbn [fst snd] in *; [|done].
    intros id' c'. cbn. intros Hin. apply Hrun; [done|]. by eapply Hw.
  - done.
Qed.

Lemma exec_seeded ops w : seeded w → seeded (exec ops w).
Proof.
  revert w. induction ops as [|o ops IH]; intros w Hw; [done|].
  cbn [exec fold_left]. apply IH. by apply run_op_seeded.
Qed.

Lemma exec_app ops more w : exec (ops ++ more) w = exec more (exec ops w).
Proof. unfold exec. apply fold_left_app. Qed.

Lemma drain_run_no_cores msgs st :
  (drain_run [] msgs st).2 = Ok st.
Proof. induction msgs as [|m rest IH]; [done|]. cbn. apply IH. Qed.

Lemma elements_at_after h l s rem :
  elements_at h l = (s ++ rem)%list → elements_at (<[l := rem]> h) l = rem.
Proof.
  unfold elements_at. intros H.
  destruct (h !! l) as [ms|] eqn:E; cbn in *.
  - rewrite list_lookup_insert_eq; [done|]. by eapply lookup_lt_Some.
  - rewrite list_insert_ge by (by apply lookup_ge_None). rewrite E. cbn.
    symmetry in H. by apply app_eq_nil in H as [_ ->].
Qed.

(** ** The order in which the registry is visited *)

(** Cores with different ids read and write different entries, so the tree
    a pass leaves does not depend on the order of the visit. *)

Lemma builder_get_spec_apply_ne m st entry k :
  entry.1 ≠ k →
  Reactor.builder_get (spec_apply m st entry) k = Reactor.builder_get st k.
Proof.
  intros Hne. unfold spec_apply, Reactor.builder_get.
  destruct (react _ _ _ _); [|done]. by rewrite lookup_insert_ne.
Qed.

Lemma checked_apply_commute m acc e1 e2 :
  e1.1 ≠ e2.1 →
  checked_apply m (checked_apply m acc e1) e2
  = checked_apply m (checked_apply m acc e2) e1.
Proof.
  intros Hne. destruct acc as [st b]. unfold checked_apply. cbn [fst snd].
  f_equal.
  - unfold spec_apply at 1 3.
    rewrite !builder_get_spec_apply_ne by done.
    unfold spec_apply.
    destruct (react e1.2 _ _ _) as [v1|], (react e2.2 _ _ _) as [v2|]; try done.
    by apply insert_insert_ne.
  - unfold spec_applicable.
    rewrite !builder_get_spec_apply_ne by done.
    destruct b,
      (Immutable.isCollection (Reactor.builder_get st e1.1)),
      (Immutable.isCollection (Reactor.builder_get st e2.1)),
      (is_Ok (react e1.2 _ _ _)), (is_Ok (react e2.2 _ _ _)); done.
Qed.

Lemma checked_apply_perm m cores cores' :
  cores ≡ₚ cores' → NoDup cores.*1 →
  ∀ acc, fold_left (checked_apply m) cores acc
         = fold_left (checked_apply m) cores' acc.
Proof.
  induction 1 as [|e l l' Hp IH|e1 e2 l|l1 l2 l3 Hp1 IH1 Hp2 IH2];
    intros Hnd acc.
  - done.
  - cbn. apply IH. by apply NoDup_cons_1_2 in Hnd.
  - cbn. f_equal. apply checked_apply_commute.
    cbn in Hnd. apply NoDup_cons_1_1 in Hnd. set_solver.
  - rewrite IH1 by done. apply IH2. by rewrite <- Hp1.
Qed.

Lemma checked_fold_perm cores cores' msgs acc :
  cores ≡ₚ cores' → NoDup cores.*1 →
  fold_left (fun acc m => fold_left (checked_apply m) cores acc) msgs acc
  = fold_left (fun acc m => fold_left (checked_apply m) cores' acc) msgs acc.
Proof.
  intros Hp Hnd. revert acc. induction msgs as [|m rest IH]; intros acc; [done|].
  cbn. rewrite IH. f_equal. by apply checked_apply_perm.
Qed.

Lemma drain_run_order cores cores' msgs st :
  cores ≡ₚ cores' → NoDup cores.*1 →
  same_tree (drain_run cores msgs st).2 (drain_run cores' msgs st).2.
Proof.
  intros Hp Hnd.
  pose proof (checked_fold_perm cores cores' msgs (st, true) Hp Hnd) as Heq.
  pose proof (drain_run_checked cores msgs st true) as H1.
  pose proof (drain_run_checked cores' msgs st true) as H2.
  destruct (drain_run cores msgs st) as [[evs1 rem1] [t1|e1]],
           (drain_run cores' msgs st) as [[evs2 rem2] [t2|e2]];
    cbn [fst snd same_tree] in *; try done.
  - rewrite H1, H2 in Heq. by inversion Heq.
  - rewrite H1 in Heq. rewrite <- Heq in H2. done.
  - rewrite H2 in Heq. rewrite Heq in H1. done.
Qed.

(** Whatever the order in which [each] visits the registry, [cycle] returns
    or raises alike and leaves the same state tree. *)
Lemma cycle_order_irrelevant a st cores cores' h :
  cores ≡ₚ cores' → NoDup cores.*1 →
  is_Ok (completion (Reactor.cycle a (World (Reactor_ st cores) h)))
  = is_Ok (completion (Reactor.cycle a (World (Reactor_ st cores') h)))
  ∧ state (this (after (Reactor.cycle a (World (Reactor_ st cores) h))))
    = state (this (after (Reactor.cycle a (World (Reactor_ st cores') h)))).
Proof.
  intros Hp Hnd. rewrite !cycle_denotes. cbn zeta. cbn [this state reactorCores].
  assert (Hb : batch_of (World (Reactor_ st cores) h) a
               = batch_of (World (Reactor_ st cores') h) a) by by destruct a.
  rewrite <- Hb.
  pose proof (drain_run_order cores cores'
                (batch_of (World (Reactor_ st cores) h) a) st Hp Hnd) as Hsame.
  destruct (drain_run cores _ st) as [[evs1 rem1] [t1|e1]],
           (drain_run cores' _ st) as [[evs2 rem2] [t2|e2]];
    cbn [fst snd same_tree] in *; try done; by subst.
Qed.

(** The registry holds at most one core per id. *)
Lemma own_None_not_elem {A} (obj : list (string * A)) k :
  own obj k = None → k ∉ obj.*1.
Proof.
  induction obj as [|[k' a'] rest IH]; cbn; [by intros _ ?%elem_of_nil|].
  destruct (String.eqb k k') eqn:E; [done|].
  apply String.eqb_neq in E. intros H. rewrite not_elem_of_cons. auto.
Qed.

Lemma obj_set_fresh {A} (obj : list (string * A)) k a :
  own obj k = None → obj_set obj k a = (obj ++ [(k, a)])%list.
Proof.
  induction obj as [|[k' a'] rest IH]; cbn; [done|].
  destruct (String.eqb k k'); [done|]. intros H. by rewrite IH.
Qed.

Lemma run_op_unique o w :
  NoDup (reactorCores (this w)).*1 →
  NoDup (reactorCores (this (after (run_op o w)))).*1.
Proof.
  intros Hnd. destruct o as [id cand|id|a|ms]; cbn [run_op].
  - rewrite attachCore_denotes. unfold obj_get.
    destruct (own (reactorCores (this w)) id) as [c0|] eqn:E; [done|].
    destruct (bool_decide _); [done|]. cbn.
    destruct cand as [c|v]; [|done]. destruct (initialize c); [|done].
    cbn. rewrite obj_set_fresh by done. rewrite fmap_app. cbn.
    apply NoDup_app. split; [done|]. split.
    + intros k Hk ->%list_elem_of_singleton. by apply own_None_not_elem in E.
    + apply NoDup_singleton.
  - cbn. eapply sublist_NoDup; [exact Hnd|].
    apply fmap_sublist. unfold obj_delete. apply sublist_filter.
  - rewrite cycle_denotes. cbn zeta.
    by destruct (drain_run _ _ _) as [[evs rem] [new|e]].
  - done.
Qed.

Lemma exec_unique ops :
  NoDup (reactorCores (this (exec ops initial))).*1.
Proof.
  assert (H : ∀ w, NoDup (reactorCores (this w)).*1 →
                   NoDup (reactorCores (this (exec ops w))).*1).
  { induction ops as [|o ops IH]; intros w Hw; [done|].
    cbn [exec fold_left]. apply IH. by apply run_op_unique. }
  apply H. cbn. apply NoDup_nil_2.
Qed.

Lemma drain_fuel_irrelevant n1 n2 l cores st w :
  (length (elements_at (arrays w) l) ≤ n1)%nat →
  (length (elements_at (arrays w) l) ≤ n2)%nat →
  Reactor.drain n1 l cores st w = Reactor.drain n2 l cores st w.
Proof. intros H1 H2. by rewrite !drain_denotes. Qed.

(** ** The claims of the specification *)

(** C1, as stated, fails: the counter attached with [initialize() -> 5] holds
    the number 5 as its sub-state, [cycle] raises when it calls
    [asImmutable] on it, and the state tree keeps 5 where the fold has 6. *)
Lemma cycle_differs_from_fold_on_scalar :
  let w := after (Reactor.attachCore "counter"
                    (Instance (Examples.counter (VNum 5))) Examples.fresh) in
  state (this (after (Reactor.cycle (utils.Batch 0%nat) w)))
  ≠ spec_fold (reactorCores (this w)) (batch_of w (utils.Batch 0%nat))
      (state (this w)).
Proof.
  cbn zeta. intros H. apply (f_equal (lookup "counter")) in H.
  vm_compute in H. discriminate H.
Qed.

(** C1, amended: when every sub-state that [cycle] reads is a persistent
    collection and every call of [react] returns, [cycle] returns and the
    state tree after it is the fold that applies, for each message in
    submission order, every registered core's [react] in registry order to
    that core's own sub-state, each returned value written back as the
    whole sub-state at the core's id. *)
Theorem cycle_is_the_fold (a : utils.messages) (w : world) :
  spec_defined (reactorCores (this w)) (batch_of w a) (state (this w)) = true →
  completion (Reactor.cycle a w) = Ok tt
  ∧ state (this (after (Reactor.cycle a w)))
    = spec_fold (reactorCores (this w)) (batch_of w a) (state (this w)).
Proof.
  intros Hdef. rewrite cycle_denotes. cbn zeta.
  pose proof (drain_run_spec (reactorCores (this w)) (batch_of w a)
                (state (this w))) as Hrun.
  rewrite Hdef in Hrun. by rewrite Hrun.
Qed.

(** The amended C1 at the mapping counter and the batch of two increments. *)
Lemma cycle_is_the_fold_witness :
  let w := after (Reactor.attachCore "counter" (Instance Examples.tally)
                    Examples.fresh) in
  completion (Reactor.cycle (utils.Batch 0%nat) w) = Ok tt
  ∧ state (this (after (Reactor.cycle (utils.Batch 0%nat) w)))
    = spec_fold (reactorCores (this w)) (batch_of w (utils.Batch 0%nat))
        (state (this w)).
Proof.
  cbn zeta. apply cycle_is_the_fold. vm_compute. reflexivity.
Defined.

(** C2: when a core's [react] raises during [cycle], that exception is the
    completion of [cycle]; the state tree and the registry are what they
    were before the call, and nothing is written to the output stream. *)
Theorem cycle_aborts_when_react_raises (a : utils.messages) (w : world)
  (id : string) (sub ty pl : value) (e : error) :
  CallReact id sub ty pl (Throw e) ∈ emitted (Reactor.cycle a w) →
  completion (Reactor.cycle a w) = Throw e
  ∧ this (after (Reactor.cycle a w)) = this w
  ∧ published (emitted (Reactor.cycle a w)) = [].
Proof.
  rewrite cycle_denotes. cbn zeta.
  pose proof (drain_run_raise (reactorCores (this w)) (batch_of w a)
                (state (this w)) id sub ty pl e) as Hraise.
  destruct (drain_run_effects (reactorCores (this w)) (batch_of w a)
              (state (this w))) as (Hpub & _).
  destruct (drain_run _ _ _) as [[evs rem] [new|e']]; cbn [fst snd] in *.
  - cbn. rewrite elem_of_app, list_elem_of_singleton.
    intros [Hin|Hin]; [by specialize (Hraise Hin)|by inversion Hin].
  - cbn. intros Hin. specialize (Hraise Hin). by inversion Hraise.
Qed.

(** C2 at a core whose [react] raises on the first message. *)
Lemma cycle_aborts_when_react_raises_witness :
  let w := after (Reactor.attachCore "f" (Instance Examples.faulty)
                    Examples.fresh) in
  completion (Reactor.cycle (utils.Batch 0%nat) w) = Throw (Raised (VStr "boom"))
  ∧ this (after (Reactor.cycle (utils.Batch 0%nat) w)) = this w
  ∧ published (emitted (Reactor.cycle (utils.Batch 0%nat) w)) = [].
Proof.
  cbn zeta.
  apply (cycle_aborts_when_react_raises _ _ "f" (IMap []) (VStr "INCREMENT") (VNum 1)).
  vm_compute. apply list_elem_of_further, list_elem_of_here.
Defined.

(** C3: attaching under an id that the registry holds fails with the error
    of a registration conflict, calls nothing and leaves the registry and
    the state tree as they were. *)
Theorem attachCore_conflict (id : string) (c0 : core) (cand : candidate)
  (w : world) :
  (id, c0) ∈ reactorCores (this w) →
  Reactor.attachCore id cand w
  = Outcome w [] (Throw (Error "Only one reactor can be registered per id")).
Proof.
  intros Hin. rewrite attachCore_denotes.
  by rewrite (obj_get_registered _ _ _ Hin).
Qed.

(** C3 at a second attach under the id [x]. *)
Lemma attachCore_conflict_witness :
  let w := after (Reactor.attachCore "x" (Instance Examples.tally) initial) in
  Reactor.attachCore "x" (Instance Examples.faulty) w
  = Outcome w [] (Throw (Error "Only one reactor can be registered per id")).
Proof.
  cbn zeta. apply (attachCore_conflict "x" Examples.tally).
  apply list_elem_of_here.
Defined.

(** C4, as stated, fails: a call of [cycle] that raises publishes nothing. *)
Lemma cycle_that_raises_publishes_nothing :
  let w := after (Reactor.attachCore "f" (Instance Examples.faulty)
                    Examples.fresh) in
  length (published (emitted (Reactor.cycle (utils.Batch 0%nat) w))) ≠ 1%nat.
Proof. vm_compute. discriminate. Qed.

(** C4, amended: a call of [cycle] that returns writes the finalized state
    tree to the output stream exactly once, whatever the number of messages,
    and a call that raises writes nothing; with an empty batch or an empty
    registry the call returns and the tree it writes is the unchanged one. *)
Theorem cycle_publishes_once (a : utils.messages) (w : world) :
  match completion (Reactor.cycle a w) with
  | Ok _ =>
      published (emitted (Reactor.cycle a w))
      = [state (this (after (Reactor.cycle a w)))]
  | Throw _ => published (emitted (Reactor.cycle a w)) = []
  end
  ∧ (batch_of w a = [] ∨ reactorCores (this w) = [] →
     completion (Reactor.cycle a w) = Ok tt
     ∧ published (emitted (Reactor.cycle a w)) = [state (this w)]).
Proof.
  rewrite cycle_denotes. cbn zeta.
  destruct (drain_run_effects (reactorCores (this w)) (batch_of w a)
              (state (this w))) as (Hpub & _).
  split.
  - destruct (drain_run _ _ _) as [[evs rem] [new|e]]; cbn [fst snd] in *; cbn.
    + by rewrite published_app, Hpub.
    + done.
  - intros [Hb|Hc].
    + rewrite Hb. done.
    + rewrite Hc in Hpub |- *.
      pose proof (drain_run_no_cores (batch_of w a) (state (this w))) as Hrun.
      destruct (drain_run _ _ _) as [[evs rem] r]; cbn [fst snd] in *.
      subst r. cbn. by rewrite published_app, Hpub.
Qed.

(** C5: a call of [cycle] on an empty batch returns, leaves the state tree
    as it was and writes it to the output stream exactly once. *)
Theorem cycle_empty_batch (a : utils.messages) (w : world) :
  batch_of w a = [] →
  completion (Reactor.cycle a w) = Ok tt
  ∧ state (this (after (Reactor.cycle a w))) = state (this w)
  ∧ published (emitted (Reactor.cycle a w)) = [state (this w)].
Proof. intros Hb. rewrite cycle_denotes, Hb. done. Qed.

(** C5 at a store with one core and an empty array. *)
Lemma cycle_empty_batch_witness :
  let w := after (Reactor.attachCore "counter" (Instance Examples.tally)
                    (World Reactor.constructor [[]])) in
  completion (Reactor.cycle (utils.Batch 0%nat) w) = Ok tt
  ∧ state (this (after (Reactor.cycle (utils.Batch 0%nat) w))) = state (this w)
  ∧ published (emitted (Reactor.cycle (utils.Batch 0%nat) w)) = [state (this w)].
Proof. cbn zeta. apply cycle_empty_batch. reflexivity. Defined.

(** C6: after any sequence of attachCore, unattachCore and cycle calls from
    a fresh store, every id of the registry has an entry in the state tree,
    and keeps one through every further sequence of calls, an unattach of
    that id included. *)
Theorem registered_ids_resolve (ops more : list op) (id : string) (c : core) :
  (id, c) ∈ reactorCores (this (exec ops initial)) →
  is_Some (state (this (exec ops initial)) !! id)
  ∧ is_Some (state (this (exec more (exec ops initial))) !! id).
Proof.
  intros Hin.
  assert (Hnow : is_Some (state (this (exec ops initial)) !! id)).
  { eapply (exec_seeded ops initial); [|done].
    intros id' c'. cbn. by intros ?%elem_of_nil. }
  split; [done|]. by apply exec_keeps.
Qed.

(** C6 at an attach followed by a cycle, and then an unattach. *)
Lemma registered_ids_resolve_witness :
  let ops := [NewArray [Examples.increment 1];
              Attach "counter" (Instance Examples.tally);
              Cycle (utils.Batch 0%nat)] in
  is_Some (state (this (exec ops initial)) !! "counter")
  ∧ is_Some (state (this (exec [Unattach "counter"] (exec ops initial)))
             !! "counter").
Proof.
  cbn zeta. apply (registered_ids_resolve _ _ "counter" Examples.tally).
  apply list_elem_of_here.
Defined.

(** C7, as stated, fails: the result 0 of [initialize] is not absent, yet
    what is stored at the id is the empty Map and not the coerced 0. *)
Lemma attachCore_replaces_falsy_result :
  state (this (after (Reactor.attachCore "counter"
                        (Instance (Examples.counter (VNum 0))) initial)))
    !! "counter"
  ≠ Some (Immutable.fromJS (VNum 0)).
Proof. vm_compute. discriminate. Qed.

(** C7, amended: attaching a core instance under a free id calls the core's
    initializer exactly once; a falsy result (absent, [null], [false], 0,
    NaN, the empty string) is treated as an empty mapping; the result is
    coerced to the persistent representation and stored in the state tree
    at the id, and the core is registered under the id. *)
Theorem attachCore_seeds (id : string) (c : core) (v : value) (w : world) :
  obj_get (reactorCores (this w)) id = Absent →
  initialize c = Ok v →
  completion (Reactor.attachCore id (Instance c) w) = Ok tt
  ∧ emitted (Reactor.attachCore id (Instance c) w) = [CallInitialize id (Ok v)]
  ∧ state (this (after (Reactor.attachCore id (Instance c) w)))
    = <[id := Immutable.fromJS (if truthy v then v else VObject [])]>
        (state (this w))
  ∧ own (reactorCores (this (after (Reactor.attachCore id (Instance c) w)))) id
    = Some c.
Proof.
  intros Hfree Hinit. rewrite attachCore_denotes, Hfree, Hinit. cbn.
  repeat split. apply own_obj_set.
Qed.

(** The amended C7 at a core whose initializer returns nothing. *)
Lemma attachCore_seeds_witness :
  let c := Core_ (Ok VUndefined) (fun st _ _ => Ok st) in
  completion (Reactor.attachCore "a" (Instance c) initial) = Ok tt
  ∧ emitted (Reactor.attachCore "a" (Instance c) initial)
    = [CallInitialize "a" (Ok VUndefined)]
  ∧ state (this (after (Reactor.attachCore "a" (Instance c) initial)))
    = <[ "a" := Immutable.fromJS (if truthy VUndefined then VUndefined else VObject []) ]>
        (state (this initial))
  ∧ own (reactorCores (this (after (Reactor.attachCore "a" (Instance c) initial)))) "a"
    = Some c.
Proof.
  cbn zeta. apply attachCore_seeds; reflexivity.
Defined.

(** C8 on the code: [attachCore] with a value that is not a core instance
    never completes; under a free id it raises the ReferenceError of the
    unbound name [Core], before any initializer is called, and leaves the
    registry and the state tree untouched. *)
Theorem attachCore_other_raises (id : string) (v : value) (w : world) :
  is_Ok (completion (Reactor.attachCore id (Other v) w)) = false
  ∧ after (Reactor.attachCore id (Other v) w) = w
  ∧ emitted (Reactor.attachCore id (Other v) w) = []
  ∧ (obj_get (reactorCores (this w)) id = Absent →
     completion (Reactor.attachCore id (Other v) w)
     = Throw (ReferenceError "Core is not defined")).
Proof.
  rewrite attachCore_denotes.
  destruct (obj_get (reactorCores (this w)) id) eqn:E; cbn; repeat split; done.
Qed.

(** C9, as stated, fails: with [initialize() -> 0] the two increments do not
    leave 3 at ['counter'] with one snapshot published. *)
Lemma counter_example_fails :
  let w := after (Reactor.attachCore "counter"
                    (Instance (Examples.counter (VNum 0))) Examples.fresh) in
  let o := Reactor.cycle (utils.Batch 0%nat) w in
  ¬ (completion (Reactor.get (utils.Key "counter") (after o)) = Ok (VNum 3)
     ∧ length (published (emitted o)) = 1%nat).
Proof. cbn zeta. intros [H _]. vm_compute in H. discriminate H. Qed.

(** C9, amended: with [initialize() -> 0] the sub-state seeded at
    ['counter'] is the empty mapping, the cycle on the two increments
    raises, [get('counter')] is the empty object and nothing is published;
    with the counter kept in a mapping, [initialize() -> {count: 0}] and
    [react] adding the payload to [count], the same batch in one cycle
    yields [get('counter') = {count: 3}] with exactly one snapshot
    published. *)
Theorem counter_example :
  (let w := after (Reactor.attachCore "counter"
                     (Instance (Examples.counter (VNum 0))) Examples.fresh) in
   let o := Reactor.cycle (utils.Batch 0%nat) w in
   completion (Reactor.get (utils.Key "counter") w) = Ok (VObject [])
   ∧ completion o = Throw (TypeError "undefined is not a function")
   ∧ completion (Reactor.get (utils.Key "counter") (after o)) = Ok (VObject [])
   ∧ published (emitted o) = [])
  ∧
  (let w := after (Reactor.attachCore "counter" (Instance Examples.tally)
                     Examples.fresh) in
   let o := Reactor.cycle (utils.Batch 0%nat) w in
   completion o = Ok tt
   ∧ completion (Reactor.get (utils.Key "counter") (after o))
     = Ok (VObject [("count", VNum 3)])
   ∧ published (emitted o) = [state (this (after o))]).
Proof. cbn zeta. repeat split; vm_compute; reflexivity. Qed.

(** C10: [cycle] consumes the array it is given.  The messages it started
    to process are a prefix of the array, removed from its front in that
    order, and the array is left with the rest; after a call that returns
    the array is empty, and after a call that raises the removed messages
    include the one whose processing raised. *)
Theorem cycle_consumes_its_array (l : loc) (w : world) :
  elements_at (arrays w) l
  = (started (emitted (Reactor.cycle (utils.Batch l) w))
     ++ elements_at (arrays (after (Reactor.cycle (utils.Batch l) w))) l)%list
  ∧ (is_Ok (completion (Reactor.cycle (utils.Batch l) w)) = true →
     elements_at (arrays (after (Reactor.cycle (utils.Batch l) w))) l = [])
  ∧ (is_Ok (completion (Reactor.cycle (utils.Batch l) w)) = false →
     started (emitted (Reactor.cycle (utils.Batch l) w)) ≠ []).
Proof.
  rewrite cycle_denotes. cbn zeta. cbn [batch_of arrays_after].
  destruct (drain_run_effects (reactorCores (this w)) (elements_at (arrays w) l)
              (state (this w))) as (_ & _ & Hs & Hok & Hthrow).
  pose proof (elements_at_after (arrays w) l) as Hafter.
  destruct (drain_run _ _ _) as [[evs rem] [new|e]]; cbn [fst snd] in *; cbn.
  - rewrite started_app. cbn. rewrite app_nil_r.
    rewrite (Hafter _ _ Hs). repeat split; [done|by intros _; apply Hok|done].
  - rewrite (Hafter _ _ Hs). repeat split; [done|done|by intros _; apply Hthrow].
Qed.

(** ** Further properties of the registry object *)

Lemma obj_delete_cons {A} (rest : list (string * A)) k k' a :
  obj_delete ((k', a) :: rest) k
  = if String.eqb k k' then obj_delete rest k else (k', a) :: obj_delete rest k.
Proof.
  unfold obj_delete. rewrite filter_cons. cbn.
  destruct (String.eqb k k'); cbn.
  - by rewrite decide_False by (by intros []).
  - by rewrite decide_True.
Qed.

Lemma own_obj_delete_eq {A} (obj : list (string * A)) k :
  own (obj_delete obj k) k = None.
Proof.
  induction obj as [|[k' a'] rest IH]; [done|].
  rewrite obj_delete_cons. destruct (String.eqb k k') eqn:E; [done|].
  cbn. by rewrite E.
Qed.

Lemma own_obj_delete_ne {A} (obj : list (string * A)) k k' :
  k' ≠ k → own (obj_delete obj k) k' = own obj k'.
Proof.
  intros Hne. induction obj as [|[k0 a0] rest IH]; [done|].
  rewrite obj_delete_cons. cbn. destruct (String.eqb k k0) eqn:E; cbn.
  - apply String.eqb_eq in E as <-.
    apply String.eqb_neq in Hne. by rewrite Hne.
  - by rewrite IH.
Qed.

Lemma obj_delete_absent {A} (obj : list (string * A)) k :
  own obj k = None → obj_delete obj k = obj.
Proof.
  induction obj as [|[k' a'] rest IH]; [done|].
  rewrite obj_delete_cons. cbn [own].
  destruct (String.eqb k k'); [done|]. intros H. by rewrite IH.
Qed.


Lemma own_unique {A} (obj : list (string * A)) k a :
  NoDup obj.*1 → (k, a) ∈ obj → own obj k = Some a.
Proof.
  induction obj as [|[k' a'] rest IH]; [by intros _ ?%elem_of_nil|].
  cbn. intros [Hk Hrest]%NoDup_cons. rewrite elem_of_cons.
  intros [[= -> ->]|Hin].
  - by rewrite String.eqb_refl.
  - destruct (String.eqb k k') eqn:E; [|by apply IH].
    apply String.eqb_eq in E as ->. destruct Hk.
    apply list_elem_of_fmap. by exists (k', a).
Qed.

(** ** Further properties of attachCore and unattachCore *)

(** X1: the registry is a plain object, so an id that names a property
    inherited from [Object.prototype] reads as taken: attaching under it
    fails with the conflict error on every store, a fresh one included,
    and nothing is called, stored or registered. *)
Theorem attachCore_inherited_name (id : string) (cand : candidate) (w : world) :
  id ∈ Object_prototype →
  Reactor.attachCore id cand w
  = Outcome w [] (Throw (Error "Only one reactor can be registered per id")).
Proof.
  intros Hin. rewrite attachCore_denotes. unfold obj_get.
  destruct (own (reactorCores (this w)) id); [done|].
  by rewrite bool_decide_eq_true_2.
Qed.

(** X1 at the id [toString] on a fresh store. *)
Lemma attachCore_inherited_name_witness :
  Reactor.attachCore "toString" (Instance Examples.tally) initial
  = Outcome initial [] (Throw (Error "Only one reactor can be registered per id")).
Proof.
  apply attachCore_inherited_name. unfold Object_prototype.
  apply list_elem_of_further, list_elem_of_here.
Defined.

(** X2: when the initializer of the core raises, [attachCore] raises the
    same exception after that one call, and leaves the state tree and the
    registry as they were: the id stays free. *)
Theorem attachCore_initialize_raises (id : string) (c : core) (e : error)
  (w : world) :
  obj_get (reactorCores (this w)) id = Absent →
  initialize c = Throw e →
  Reactor.attachCore id (Instance c) w
  = Outcome w [CallInitialize id (Throw e)] (Throw e).
Proof.
  intros Hfree Hinit. by rewrite attachCore_denotes, Hfree, Hinit.
Qed.

(** X2 at a core whose initializer raises, on a fresh store. *)
Lemma attachCore_initialize_raises_witness :
  let c := Core_ (Throw (Raised (VStr "no"))) (fun st _ _ => Ok st) in
  Reactor.attachCore "a" (Instance c) initial
  = Outcome initial [CallInitialize "a" (Throw (Raised (VStr "no")))]
      (Throw (Raised (VStr "no"))).
Proof.
  cbn zeta. apply attachCore_initialize_raises; reflexivity.
Defined.

(** X3: [unattachCore] never raises and calls nothing; it removes the id
    from the registry and nothing else: every other id keeps its core, and
    the state tree, the entry of the id included, and the arrays are left
    alone.  Detaching again changes nothing more. *)
Theorem unattachCore_removes_only_id (id : string) (w : world) :
  let o := Reactor.unattachCore id w in
  completion o = Ok tt
  ∧ emitted o = []
  ∧ state (this (after o)) = state (this w)
  ∧ arrays (after o) = arrays w
  ∧ own (reactorCores (this (after o))) id = None
  ∧ (∀ id', id' ≠ id →
       own (reactorCores (this (after o))) id' = own (reactorCores (this w)) id')
  ∧ after (Reactor.unattachCore id (after o)) = after o.
Proof.
  cbn zeta. rewrite !unattachCore_denotes. cbn.
  repeat split.
  - apply own_obj_delete_eq.
  - intros id' Hne. by apply own_obj_delete_ne.
  - f_equal. f_equal. apply obj_delete_absent, own_obj_delete_eq.
Qed.

(** X4: a detached id is free again unless it names an inherited property:
    attaching a core instance under it succeeds, replaces whatever
    sub-state the tree still held at the id by the coerced result of the
    new initializer, and registers the new core. *)
Theorem attachCore_after_unattachCore (id : string) (c : core) (v : value)
  (w : world) :
  id ∉ Object_prototype →
  initialize c = Ok v →
  let w1 := after (Reactor.unattachCore id w) in
  completion (Reactor.attachCore id (Instance c) w1) = Ok tt
  ∧ state (this (after (Reactor.attachCore id (Instance c) w1))) !! id
    = Some (Immutable.fromJS (js_or v (VObject [])))
  ∧ own (reactorCores (this (after (Reactor.attachCore id (Instance c) w1)))) id
    = Some c.
Proof.
  intros Hid Hinit. cbn zeta. rewrite unattachCore_denotes. cbn [after].
  rewrite attachCore_denotes. cbn [this reactorCores state arrays].
  unfold obj_get. rewrite own_obj_delete_eq.
  rewrite bool_decide_eq_false_2 by done. cbn. rewrite Hinit. cbn.
  repeat split.
  - apply lookup_insert_eq.
  - apply own_obj_set.
Qed.

(** X4 at a counter detached and attached again as a mapping counter. *)
Lemma attachCore_after_unattachCore_witness :
  let w := after (Reactor.attachCore "counter"
                    (Instance (Examples.counter (VNum 5))) initial) in
  let w1 := after (Reactor.unattachCore "counter" w) in
  completion (Reactor.attachCore "counter" (Instance Examples.tally) w1) = Ok tt
  ∧ state (this (after (Reactor.attachCore "counter" (Instance Examples.tally) w1)))
      !! "counter"
    = Some (Immutable.fromJS (js_or (VObject [("count", VNum 0%Z)]) (VObject [])))
  ∧ own (reactorCores
           (this (after (Reactor.attachCore "counter" (Instance Examples.tally) w1))))
      "counter"
    = Some Examples.tally.
Proof.
  cbn zeta. apply attachCore_after_unattachCore; [|reflexivity].
  apply (bool_decide_unpack _). vm_compute. exact I.
Defined.



(** ** Further properties of a run *)

Lemma reacted_app evs1 evs2 :
  reacted (evs1 ++ evs2) = (reacted evs1 ++ reacted evs2)%list.
Proof. unfold reacted. apply omap_app. Qed.

Lemma each_run_frame cores m st st' id :
  id ∉ cores.*1 → (each_run cores m st).2 = Ok st' → st' !! id = st !! id.
Proof.
  revert st. induction cores as [|[id' c] rest IH]; intros st; cbn [each_run].
  - by intros _ [= ->].
  - cbn. rewrite not_elem_of_cons. intros [Hne Hrest].
    destruct (Immutable.asImmutable _) as [sub|e]; [|done].
    destruct (react c sub (type m) (payload m)) as [new|e]; [|done].
    cbn [snd]. intros H. rewrite (IH _ Hrest H). by rewrite lookup_insert_ne.
Qed.

Lemma each_run_reacted_ids cores m st x :
  x ∈ reacted (each_run cores m st).1 → x.1.1 ∈ cores.*1.
Proof.
  revert st. induction cores as [|[id' c] rest IH]; intros st; cbn [each_run].
  - by intros ?%elem_of_nil.
  - destruct (Immutable.asImmutable _) as [sub|e]; [|by intros ?%elem_of_nil].
    destruct (react c sub (type m) (payload m)) as [new|e]; cbn.
    + rewrite elem_of_cons. intros [->|H]; [by left|]. right. by eapply IH.
    + rewrite list_elem_of_singleton. intros ->. by left.
Qed.

Lemma drain_run_frame cores msgs st st' id :
  id ∉ cores.*1 → (drain_run cores msgs st).2 = Ok st' → st' !! id = st !! id.
Proof.
  intros Hid. revert st. induction msgs as [|m rest IH]; intros st; cbn [drain_run].
  - by intros [= ->].
  - cbn zeta. pose proof (each_run_frame cores m st) as Hpass.
    destruct (each_run cores m st) as [evs [st1|e]]; cbn [fst snd] in *; [|done].
    intros H. rewrite (IH _ H). by apply Hpass.
Qed.

Lemma drain_run_reacted_ids cores msgs st x :
  x ∈ reacted (drain_run cores msgs st).1.1 → x.1.1 ∈ cores.*1.
Proof.
  revert st. induction msgs as [|m rest IH]; intros st; cbn [drain_run].
  - by intros ?%elem_of_nil.
  - cbn zeta. pose proof (each_run_reacted_ids cores m st x) as Hpass.
    destruct (each_run cores m st) as [evs [st1|e]]; cbn [fst snd] in *.
    + change (LogCycleStart (Some m) :: evs ++ LogCycleEnd st1 :: ?t)
        with ([LogCycleStart (Some m)] ++ evs ++ [LogCycleEnd st1] ++ t)%list.
      rewrite !reacted_app. cbn. rewrite elem_of_app.
      intros [H|H]; [by apply Hpass|by eapply IH].
    + done.
Qed.

Lemma each_run_calls cores m st st' :
  (each_run cores m st).2 = Ok st' →
  reacted (each_run cores m st).1 = calls_for cores m.
Proof.
  revert st. induction cores as [|[id c] rest IH]; intros st; cbn [each_run]; [done|].
  destruct (Immutable.asImmutable _) as [sub|e]; [|done].
  destruct (react c sub (type m) (payload m)) as [new|e]; [|done].
  cbn. intros H. f_equal. by eapply IH.
Qed.

Lemma drain_run_calls cores msgs st st' :
  (drain_run cores msgs st).2 = Ok st' →
  reacted (drain_run cores msgs st).1.1 = flat_map (calls_for cores) msgs.
Proof.
  revert st. induction msgs as [|m rest IH]; intros st; cbn [drain_run]; [done|].
  cbn zeta. pose proof (each_run_calls cores m st) as Hpass.
  destruct (each_run cores m st) as [evs [st1|e]]; cbn [fst snd] in *; [|done].
  intros H.
  change (LogCycleStart (Some m) :: evs ++ LogCycleEnd st1 :: ?t)
    with ([LogCycleStart (Some m)] ++ evs ++ [LogCycleEnd st1] ++ t)%list.
  rewrite !reacted_app. cbn. rewrite (Hpass st1 eq_refl). f_equal. by eapply IH.
Qed.

Lemma drain_run_Ok_fold cores msgs st st' :
  (drain_run cores msgs st).2 = Ok st' → st' = spec_fold cores msgs st.
Proof.
  intros H. pose proof (drain_run_spec cores msgs st) as Hspec.
  destruct (spec_defined cores msgs st).
  - rewrite H in Hspec. by inversion Hspec.
  - destruct Hspec as [e He]. congruence.
Qed.

(** *** One core among the others *)

Lemma spec_apply_frame m cores st id :
  id ∉ cores.*1 → fold_left (spec_apply m) cores st !! id = st !! id.
Proof.
  revert st. induction cores as [|[k c] rest IH]; intros st; [done|].
  cbn. rewrite not_elem_of_cons. intros [Hne Hrest]. rewrite IH by done.
  unfold spec_apply. cbn. destruct (react c _ _ _); [|done].
  by rewrite lookup_insert_ne.
Qed.

Lemma spec_apply_local m st1 st2 id c :
  st1 !! id = st2 !! id →
  spec_apply m st1 (id, c) !! id = spec_apply m st2 (id, c) !! id.
Proof.
  intros H. unfold spec_apply, Reactor.builder_get. cbn. rewrite H.
  destruct (react c _ _ _); [|done]. by rewrite !lookup_insert_eq.
Qed.

Lemma spec_apply_at m cores st id c :
  NoDup cores.*1 → (id, c) ∈ cores →
  fold_left (spec_apply m) cores st !! id = spec_apply m st (id, c) !! id.
Proof.
  revert st. induction cores as [|[k0 c0] rest IH]; intros st;
    [by intros _ ?%elem_of_nil|].
  cbn. intros [Hk Hrest]%NoDup_cons. rewrite elem_of_cons.
  intros [[= -> ->]|Hin].
  - by apply spec_apply_frame.
  - assert (Hne : k0 ≠ id).
    { intros ->. apply Hk. apply list_elem_of_fmap. by exists (id, c). }
    rewrite IH by done. apply spec_apply_local.
    unfold spec_apply. cbn. destruct (react c0 _ _ _); [|done].
    by rewrite lookup_insert_ne.
Qed.

Lemma spec_fold_at cores msgs st1 st2 id c :
  NoDup cores.*1 → (id, c) ∈ cores → st1 !! id = st2 !! id →
  spec_fold cores msgs st1 !! id = spec_fold [(id, c)] msgs st2 !! id.
Proof.
  intros Hnd Hin. revert st1 st2.
  induction msgs as [|m rest IH]; intros st1 st2 H; [done|].
  cbn. apply IH. rewrite (spec_apply_at m cores st1 id c) by done.
  by apply spec_apply_local.
Qed.

(** *** Stores whose cores keep to persistent collections *)

Lemma each_run_closed all cores m st :
  (∀ id c, (id, c) ∈ cores → (id, c) ∈ all) →
  (∀ id c, (id, c) ∈ all → closed_on_collections c) →
  collections_at all st →
  ∃ st', (each_run cores m st).2 = Ok st' ∧ collections_at all st'.
Proof.
  intros Hsub Hclosed. revert st Hsub.
  induction cores as [|[id c] rest IH]; intros st Hsub Hst; cbn [each_run].
  - by exists st.
  - assert (Hin : (id, c) ∈ all) by (apply Hsub; left).
    pose proof (Hst id c Hin) as Hcol.
    destruct (Reactor.builder_get st id) as [| | | | | | | |es|xs] eqn:E;
      try discriminate Hcol; cbn [Immutable.asImmutable].
    + destruct (Hclosed id c Hin (IMap es) (type m) (payload m) eq_refl)
        as (new & -> & Hnew). cbn [snd].
      apply IH; [intros; apply Hsub; by right|].
      intros id' c' Hin'. unfold Reactor.builder_get.
      rewrite lookup_insert. case_decide; [done|]. by apply (Hst id' c').
    + destruct (Hclosed id c Hin (IList xs) (type m) (payload m) eq_refl)
        as (new & -> & Hnew). cbn [snd].
      apply IH; [intros; apply Hsub; by right|].
      intros id' c' Hin'. unfold Reactor.builder_get.
      rewrite lookup_insert. case_decide; [done|]. by apply (Hst id' c').
Qed.

Lemma drain_run_closed cores msgs st :
  (∀ id c, (id, c) ∈ cores → closed_on_collections c) →
  collections_at cores st →
  ∃ st', (drain_run cores msgs st).2 = Ok st' ∧ collections_at cores st'.
Proof.
  intros Hclosed. revert st. induction msgs as [|m rest IH]; intros st Hst.
  - by exists st.
  - cbn [drain_run]. cbn zeta.
    destruct (each_run_closed cores cores m st) as (st1 & H1 & Hst1); try done.
    destruct (each_run cores m st) as [evs r]; cbn [fst snd] in *. subst r.
    by apply IH.
Qed.

Lemma each_run_stuck cores m st id c :
  NoDup cores.*1 → (id, c) ∈ cores →
  Immutable.isCollection (Reactor.builder_get st id) = false →
  is_Ok (each_run cores m st).2 = false.
Proof.
  revert st. induction cores as [|[k0 c0] rest IH]; intros st;
    [by intros _ ?%elem_of_nil|].
  cbn [each_run]. cbn. intros [Hk Hrest]%NoDup_cons Hin Hbad.
  destruct (Immutable.asImmutable (Reactor.builder_get st k0)) as [sub|e] eqn:E;
    [|done].
  destruct (react c0 sub (type m) (payload m)) as [new|e]; [|done].
  cbn [snd]. apply elem_of_cons in Hin as [[= -> ->]|Hin].
  - apply asImmutable_Ok in E as [_ E]. congruence.
  - apply IH; [done|done|].
    assert (Hne : k0 ≠ id).
    { intros ->. apply Hk. apply list_elem_of_fmap. by exists (id, c). }
    unfold Reactor.builder_get in *. by rewrite lookup_insert_ne.
Qed.

(** *** Reads *)

Lemma toJS_fromJS v : plain v = true → Immutable.toJS (Immutable.fromJS v) = v.
Proof.
  revert v. fix IH 1. intros [| |b|n| |s|fs|xs|es|xs]; cbn; try done.
  - intros H. f_equal. induction fs as [|[k x] fs IHfs]; [done|].
    cbn in H |- *. apply andb_true_iff in H as [H1 H2].
    rewrite (IH x H1). f_equal. by apply IHfs.
  - intros H. f_equal. induction xs as [|x xs IHxs]; [done|].
    cbn in H |- *. apply andb_true_iff in H as [H1 H2].
    rewrite (IH x H1). f_equal. by apply IHxs.
Qed.

Lemma plain_not_collection v : plain v = true → Immutable.isCollection v = false.
Proof. by destruct v. Qed.

Lemma cycle_lone_this m w :
  this (after (Reactor.cycle (utils.Lone m) w))
  = match (each_run (reactorCores (this w)) m (state (this w))).2 with
    | Ok st' => Reactor_ st' (reactorCores (this w))
    | Throw _ => this w
    end.
Proof.
  rewrite cycle_denotes. cbn zeta. cbn [batch_of drain_run]. cbn zeta.
  by destruct (each_run _ m _) as [evs [st'|e]].
Qed.

Lemma dispatch_each_state msgs w final :
  (drain_run (reactorCores (this w)) msgs (state (this w))).2 = Ok final →
  state (this (dispatch_each msgs w)) = final.
Proof.
  revert w. induction msgs as [|m rest IH]; intros w; cbn [drain_run].
  - by intros [= <-].
  - cbn zeta. unfold dispatch_each. cbn [fold_left].
    fold (dispatch_each rest (after (Reactor.cycle (utils.Lone m) w))).
    pose proof (cycle_lone_this m w) as Hthis.
    destruct (each_run _ m _) as [evs [st1|e]]; cbn [fst snd] in *; [|done].
    intros H. apply IH. by rewrite Hthis.
Qed.

Lemma elements_at_app_empty h l :
  elements_at (h ++ [[]]) l = elements_at h l.
Proof.
  unfold elements_at. destruct (decide (l < length h)%nat) as [Hlt|Hge].
  - by rewrite lookup_app_l.
  - assert (Hnone : h !! l = None) by (apply lookup_ge_None; lia).
    rewrite lookup_app_r by lia. rewrite Hnone.
    by destruct (l - length h)%nat as [|[|n]].
Qed.

Lemma elements_at_insert_ne h l l' rem :
  l ≠ l' → elements_at (<[l := rem]> h) l' = elements_at h l'.
Proof. intros Hne. unfold elements_at. by rewrite list_lookup_insert_ne. Qed.

(** ** Further properties of cycle *)

(** X6: [cycle] calls no core for an id that the registry does not hold,
    and leaves the entry of such an id in the state tree as it was: the
    sub-state of a detached core is frozen, whatever the messages. *)
Theorem cycle_skips_unregistered_id (a : utils.messages) (w : world)
  (id : string) :
  id ∉ (reactorCores (this w)).*1 →
  state (this (after (Reactor.cycle a w))) !! id = state (this w) !! id
  ∧ ∀ ty pl, (id, ty, pl) ∉ reacted (emitted (Reactor.cycle a w)).
Proof.
  intros Hid. rewrite cycle_denotes. cbn zeta.
  pose proof (drain_run_frame (reactorCores (this w)) (batch_of w a)
                (state (this w))) as Hframe.
  pose proof (drain_run_reacted_ids (reactorCores (this w)) (batch_of w a)
                (state (this w))) as Hids.
  destruct (drain_run _ _ _) as [[evs rem] [new|e]]; cbn [fst snd] in *; cbn.
  - split; [by eapply Hframe|]. intros ty pl.
    rewrite reacted_app. cbn. rewrite app_nil_r.
    intros Hin. by apply Hids in Hin.
  - split; [done|]. intros ty pl Hin. by apply Hids in Hin.
Qed.

(** X6 at a mapping counter that was detached before the cycle. *)
Lemma cycle_skips_unregistered_id_witness :
  let w := after (Reactor.unattachCore "counter"
                    (after (Reactor.attachCore "counter" (Instance Examples.tally)
                              Examples.fresh))) in
  state (this (after (Reactor.cycle (utils.Batch 0%nat) w))) !! "counter"
  = state (this w) !! "counter"
  ∧ ∀ ty pl, ("counter", ty, pl)
             ∉ reacted (emitted (Reactor.cycle (utils.Batch 0%nat) w)).
Proof.
  cbn zeta. apply cycle_skips_unregistered_id.
  cbn. apply not_elem_of_nil.
Defined.

(** X7: when [cycle] returns from a registry that holds one core per id, the
    sub-state it leaves at a registered id is the one it would have left had
    that core been the only one registered: no other core has any part in
    it. *)
Theorem cycle_isolates_cores (a : utils.messages) (w : world) (id : string)
  (c : core) :
  NoDup (reactorCores (this w)).*1 →
  (id, c) ∈ reactorCores (this w) →
  is_Ok (completion (Reactor.cycle a w)) = true →
  state (this (after (Reactor.cycle a w))) !! id
  = spec_fold [(id, c)] (batch_of w a) (state (this w)) !! id.
Proof.
  intros Hnd Hin. rewrite cycle_denotes. cbn zeta.
  pose proof (drain_run_Ok_fold (reactorCores (this w)) (batch_of w a)
                (state (this w))) as Hfold.
  destruct (drain_run _ _ _) as [[evs rem] [new|e]]; cbn [fst snd] in *; cbn;
    [|done].
  intros _. rewrite (Hfold new eq_refl). by apply spec_fold_at.
Qed.

(** X7 at a mapping counter registered beside a second one. *)
Lemma cycle_isolates_cores_witness :
  let w := after (Reactor.attachCore "b" (Instance Examples.tally)
                    (after (Reactor.attachCore "a" (Instance Examples.tally)
                              Examples.fresh))) in
  state (this (after (Reactor.cycle (utils.Batch 0%nat) w))) !! "b"
  = spec_fold [("b", Examples.tally)] (batch_of w (utils.Batch 0%nat))
      (state (this w)) !! "b".
Proof.
  cbn zeta. apply cycle_isolates_cores.
  - apply (bool_decide_unpack _). vm_compute. exact I.
  - apply list_elem_of_further, list_elem_of_here.
  - vm_compute. reflexivity.
Defined.

(** X8: after any sequence of attachCore, unattachCore and cycle calls from
    a fresh store the registry holds at most one core per id, and reading
    the registry at an id finds exactly the core registered under it. *)
Theorem registry_one_core_per_id (ops : list op) :
  NoDup (reactorCores (this (exec ops initial))).*1
  ∧ ∀ id c, (id, c) ∈ reactorCores (this (exec ops initial))
            ↔ own (reactorCores (this (exec ops initial))) id = Some c.
Proof.
  pose proof (exec_unique ops) as Hnd. split; [done|].
  intros id c. split; [by apply own_unique|apply own_Some_elem_of].
Qed.

(** X9: [cycle] never changes the registry, and the only array it changes
    is the one it is handed: every other array of the caller keeps its
    elements, and a lone message leaves all of them alone. *)
Theorem cycle_touches_only_its_batch (a : utils.messages) (w : world) :
  reactorCores (this (after (Reactor.cycle a w))) = reactorCores (this w)
  ∧ ∀ l, a ≠ utils.Batch l →
      elements_at (arrays (after (Reactor.cycle a w))) l = elements_at (arrays w) l.
Proof.
  rewrite cycle_denotes. cbn zeta.
  destruct (drain_run_effects (reactorCores (this w)) (batch_of w a)
              (state (this w))) as (_ & _ & Hs & Hok & Hthrow).
  assert (Harr : ∀ l, a ≠ utils.Batch l →
            elements_at (arrays_after w a
              (drain_run (reactorCores (this w)) (batch_of w a) (state (this w))).1.2) l
            = elements_at (arrays w) l).
  { intros l Hne. destruct a as [m|l0]; cbn [arrays_after batch_of] in *.
    - assert (Hrem : (drain_run (reactorCores (this w)) [m] (state (this w))).1.2 = []).
      { destruct (drain_run _ [m] _) as [[evs rem] [new|e]]; cbn [fst snd] in *.
        - by apply Hok.
        - specialize (Hthrow eq_refl). destruct (started evs) as [|m' ms]; [done|].
          cbn in Hs. injection Hs as _ Hs. symmetry in Hs.
          by apply app_eq_nil in Hs as [_ ->]. }
      rewrite Hrem. apply elements_at_app_empty.
    - apply elements_at_insert_ne. congruence. }
  destruct (drain_run _ _ _) as [[evs rem] [new|e]]; cbn [fst snd] in *; cbn;
    by split.
Qed.

(** X10: when [cycle] returns on a batch, the state tree it leaves is the
    one reached by handing the messages of the batch to [cycle] one at a
    time, in the same order. *)
Theorem cycle_batch_as_single_messages (a : utils.messages) (w : world) :
  is_Ok (completion (Reactor.cycle a w)) = true →
  state (this (after (Reactor.cycle a w)))
  = state (this (dispatch_each (batch_of w a) w)).
Proof.
  rewrite cycle_denotes. cbn zeta.
  pose proof (dispatch_each_state (batch_of w a) w) as Heach.
  destruct (drain_run _ _ _) as [[evs rem] [new|e]]; cbn [fst snd] in *; cbn;
    [|done].
  intros _. symmetry. by apply Heach.
Qed.

(** X10 at the mapping counter and the batch of two increments. *)
Lemma cycle_batch_as_single_messages_witness :
  let w := after (Reactor.attachCore "counter" (Instance Examples.tally)
                    Examples.fresh) in
  state (this (after (Reactor.cycle (utils.Batch 0%nat) w)))
  = state (this (dispatch_each (batch_of w (utils.Batch 0%nat)) w)).
Proof.
  cbn zeta. apply cycle_batch_as_single_messages. vm_compute. reflexivity.
Defined.

(** X11: a call of [cycle] that returns has called [react] once for every
    message and every registered core, message after message in the order
    of the batch and, for each message, core after core in the order of
    the registry, each time with the type and the payload of the message. *)
Theorem cycle_calls_every_core_per_message (a : utils.messages) (w : world) :
  is_Ok (completion (Reactor.cycle a w)) = true →
  reacted (emitted (Reactor.cycle a w))
  = flat_map (calls_for (reactorCores (this w))) (batch_of w a).
Proof.
  rewrite cycle_denotes. cbn zeta.
  pose proof (drain_run_calls (reactorCores (this w)) (batch_of w a)
                (state (this w))) as Hcalls.
  destruct (drain_run _ _ _) as [[evs rem] [new|e]]; cbn [fst snd] in *; cbn;
    [|done].
  intros _. rewrite reacted_app. cbn. rewrite app_nil_r. by eapply Hcalls.
Qed.

(** X11 at two mapping counters and the batch of two increments. *)
Lemma cycle_calls_every_core_per_message_witness :
  let w := after (Reactor.attachCore "b" (Instance Examples.tally)
                    (after (Reactor.attachCore "a" (Instance Examples.tally)
                              Examples.fresh))) in
  reacted (emitted (Reactor.cycle (utils.Batch 0%nat) w))
  = flat_map (calls_for (reactorCores (this w))) (batch_of w (utils.Batch 0%nat)).
Proof.
  cbn zeta. apply cycle_calls_every_core_per_message. vm_compute. reflexivity.
Defined.

(** X12: right after a core instance is attached under a free id, [get] of
    that id returns the plain value its initializer returned, and the empty
    object when that value was falsy; the read leaves the store as it is. *)
Theorem get_after_attachCore (id : string) (c : core) (v : value) (w : world) :
  obj_get (reactorCores (this w)) id = Absent →
  initialize c = Ok v →
  plain v = true →
  let w1 := after (Reactor.attachCore id (Instance c) w) in
  Reactor.get (utils.Key id) w1
  = Outcome w1 [] (Ok (if truthy v then v else VObject [])).
Proof.
  intros Hfree Hinit Hplain. cbn zeta.
  rewrite attachCore_denotes, Hfree, Hinit. cbn [property_truthy after].
  unfold Reactor.get, Reactor.getImmutable, bind, read_this, ret.
  cbn [this state utils.keyPath immutable_helpers.get].
  rewrite lookup_insert_eq. cbn [immutable_helpers.getIn app].
  unfold js_or, immutable_helpers.toJS, immutable_helpers.isImmutable.
  f_equal. f_equal. destruct (truthy v); [|done].
  destruct (Immutable.isCollection (Immutable.fromJS v)) eqn:E.
  - by apply toJS_fromJS.
  - by destruct v.
Qed.

(** X12 at the mapping counter, whose initializer returns [{count: 0}]. *)
Lemma get_after_attachCore_witness :
  let w1 := after (Reactor.attachCore "counter" (Instance Examples.tally) initial) in
  Reactor.get (utils.Key "counter") w1
  = Outcome w1 []
      (Ok (if truthy (VObject [("count", VNum 0%Z)])
           then VObject [("count", VNum 0%Z)] else VObject [])).
Proof.
  cbn zeta. apply get_after_attachCore; reflexivity.
Defined.

(** X13: when every registered id holds a persistent collection and every
    registered core returns a persistent collection whenever it is handed
    one, [cycle] returns on every batch, and every registered id holds a
    persistent collection again afterwards. *)
Theorem cycle_returns_on_collections (a : utils.messages) (w : world) :
  (∀ id c, (id, c) ∈ reactorCores (this w) → closed_on_collections c) →
  collections_at (reactorCores (this w)) (state (this w)) →
  completion (Reactor.cycle a w) = Ok tt
  ∧ collections_at (reactorCores (this (after (Reactor.cycle a w))))
      (state (this (after (Reactor.cycle a w)))).
Proof.
  intros Hclosed Hst. rewrite cycle_denotes. cbn zeta.
  destruct (drain_run_closed (reactorCores (this w)) (batch_of w a)
              (state (this w)) Hclosed Hst) as (st' & Hrun & Hst').
  destruct (drain_run _ _ _) as [[evs rem] r]; cbn [fst snd] in *. by subst r.
Qed.

(** X13 at a core that returns the state it is handed. *)
Lemma cycle_returns_on_collections_witness :
  let keep := Core_ (Ok VUndefined) (fun st _ _ => Ok st) in
  let w := after (Reactor.attachCore "k" (Instance keep) Examples.fresh) in
  completion (Reactor.cycle (utils.Batch 0%nat) w) = Ok tt
  ∧ collections_at (reactorCores (this (after (Reactor.cycle (utils.Batch 0%nat) w))))
      (state (this (after (Reactor.cycle (utils.Batch 0%nat) w)))).
Proof.
  cbn zeta. apply cycle_returns_on_collections.
  - intros id c Hin. cbn in Hin. apply list_elem_of_singleton in Hin.
    injection Hin as -> ->. intros sub ty pl Hsub. by exists sub.
  - intros id c Hin. cbn in Hin. apply list_elem_of_singleton in Hin.
    injection Hin as -> ->. reflexivity.
Defined.

(** X14: a call of [cycle] that raises, for whatever reason, commits
    nothing: the state tree and the registry are those before the call and
    nothing is written to the output stream. *)
Theorem cycle_raise_commits_nothing (a : utils.messages) (w : world) :
  is_Ok (completion (Reactor.cycle a w)) = false →
  this (after (Reactor.cycle a w)) = this w
  ∧ published (emitted (Reactor.cycle a w)) = [].
Proof.
  rewrite cycle_denotes. cbn zeta.
  destruct (drain_run_effects (reactorCores (this w)) (batch_of w a)
              (state (this w))) as (Hpub & _).
  by destruct (drain_run _ _ _) as [[evs rem] [new|e]].
Qed.

(** X14 at the counter seeded with the number 5. *)
Lemma cycle_raise_commits_nothing_witness :
  let w := after (Reactor.attachCore "counter"
                    (Instance (Examples.counter (VNum 5))) Examples.fresh) in
  this (after (Reactor.cycle (utils.Batch 0%nat) w)) = this w
  ∧ published (emitted (Reactor.cycle (utils.Batch 0%nat) w)) = [].
Proof.
  cbn zeta. apply cycle_raise_commits_nothing. vm_compute. reflexivity.
Defined.

(** X15: when some registered id holds a sub-state that is not a persistent
    collection (a number, a string, a plain object, nothing at all), every
    call of [cycle] with at least one message raises. *)
Theorem cycle_raises_on_scalar_substate (a : utils.messages) (w : world)
  (id : string) (c : core) :
  NoDup (reactorCores (this w)).*1 →
  (id, c) ∈ reactorCores (this w) →
  Immutable.isCollection (Reactor.builder_get (state (this w)) id) = false →
  batch_of w a ≠ [] →
  is_Ok (completion (Reactor.cycle a w)) = false.
Proof.
  intros Hnd Hin Hbad Hbatch. rewrite cycle_denotes. cbn zeta.
  destruct (batch_of w a) as [|m rest]; [done|]. cbn [drain_run]. cbn zeta.
  pose proof (each_run_stuck (reactorCores (this w)) m (state (this w)) id c
                Hnd Hin Hbad) as Hstuck.
  by destruct (each_run _ m _) as [evs [st'|e]].
Qed.

(** X15 at the counter seeded with the number 5. *)
Lemma cycle_raises_on_scalar_substate_witness :
  let w := after (Reactor.attachCore "counter"
                    (Instance (Examples.counter (VNum 5))) Examples.fresh) in
  is_Ok (completion (Reactor.cycle (utils.Batch 0%nat) w)) = false.
Proof.
  cbn zeta.
  apply (cycle_raises_on_scalar_substate _ _ "counter" (Examples.counter (VNum 5))).
  - apply (bool_decide_unpack _). vm_compute. exact I.
  - apply list_elem_of_here.
  - reflexivity.
  - discriminate.
Defined.

(** X16: the state tree that [cycle] leaves, and whether it returns or
    raises, do not depend on the order in which the cores of the registry
    are visited: two stores with the same state tree and the same cores,
    registered in different orders, end a cycle on the same batch alike. *)
Theorem cycle_visiting_order (a : utils.messages) (w w' : world) :
  state (this w) = state (this w') →
  arrays w = arrays w' →
  reactorCores (this w) ≡ₚ reactorCores (this w') →
  NoDup (reactorCores (this w)).*1 →
  is_Ok (completion (Reactor.cycle a w)) = is_Ok (completion (Reactor.cycle a w'))
  ∧ state (this (after (Reactor.cycle a w)))
    = state (this (after (Reactor.cycle a w'))).
Proof.
  destruct w as [[st cores] h], w' as [[st' cores'] h']. cbn.
  intros <- <- Hp Hnd. by apply cycle_order_irrelevant.
Qed.

(** X16 at two mapping counters attached in the two possible orders. *)
Lemma cycle_visiting_order_witness :
  let w := after (Reactor.attachCore "b" (Instance Examples.tally)
                    (after (Reactor.attachCore "a" (Instance Examples.tally)
                              Examples.fresh))) in
  let w' := after (Reactor.attachCore "a" (Instance Examples.tally)
                     (after (Reactor.attachCore "b" (Instance Examples.tally)
                               Examples.fresh))) in
  is_Ok (completion (Reactor.cycle (utils.Batch 0%nat) w))
  = is_Ok (completion (Reactor.cycle (utils.Batch 0%nat) w'))
  ∧ state (this (after (Reactor.cycle (utils.Batch 0%nat) w)))
    = state (this (after (Reactor.cycle (utils.Batch 0%nat) w'))).
Proof.
  cbn zeta. apply cycle_visiting_order.
  - vm_compute. reflexivity.
  - reflexivity.
  - apply perm_swap.
  - apply (bool_decide_unpack _). vm_compute. exact I.
Defined.
